(** * Willora journal: confidentiality codec and statistics

    A shallow embedding of the two pieces of logic of the repository:

    - [JournalPage.jsx]: [encryptText], [decryptText] and the mapping that
      [fetchEntries] applies to the records it receives;
    - [routes/stats.js]: the average-mood and streak computations of the
      statistics handler.

    JavaScript built-ins are modelled by what ECMAScript says of them:
    a completion is normal or abrupt, a [Date] is a time value in
    milliseconds (or NaN) read in a time zone whose offset may change, a
    number is a rational rounded to binary64 where the code divides.  What
    ECMAScript leaves to the engine, the order [sort] gives when its
    comparator returns NaN, is a parameter.  The cipher (CryptoJS) is a
    library outside the repository and is an interface here. *)

From Stdlib Require Import ZArith QArith Qround Qabs List String Ascii Bool.
From Stdlib Require Import Lia Lqa Permutation Sorted DecimalString.
From Stdlib Require Floats Uint63.
Import ListNotations.
Local Open Scope Z_scope.

(* ================================================================== *)
(** * Part I: the model *)
(* ================================================================== *)

(** ** JavaScript completions, truthiness and numbers *)

Module JS.

(** An evaluation either returns a value or throws. *)
Inductive Completion (A : Type) : Type :=
| Normal (value : A)
| Throw (reason : string).

Arguments Normal {A} value.
Arguments Throw {A} reason.

Definition bind {A B : Type} (c : Completion A) (k : A -> Completion B)
  : Completion B :=
  match c with
  | Normal a => k a
  | Throw r => Throw r
  end.

(** [try { body } catch { handler }] *)
Definition tryCatch {A : Type} (body handler : Completion A) : Completion A :=
  match body with
  | Normal a => Normal a
  | Throw _ => handler
  end.

(** [Array.prototype.map] with a callback that may throw: the first throw
    aborts the whole map. *)
Fixpoint mapM {A B : Type} (f : A -> Completion B) (l : list A)
  : Completion (list B) :=
  match l with
  | [] => Normal []
  | a :: l' => bind (f a) (fun b => bind (mapM f l') (fun bs => Normal (b :: bs)))
  end.

(** ToBoolean on a string: only the empty string is falsy. *)
Definition truthy (s : string) : bool :=
  match s with
  | EmptyString => false
  | String _ _ => true
  end.

(** [s || d] on strings. *)
Definition orElse (s d : string) : string := if truthy s then s else d.

(** What the handler puts in the JSON response: a number or a string. *)
Inductive Value : Type :=
| Num (z : Z)
| Str (s : string).

End JS.

(** ** binary64 division and [Number.prototype.toFixed(1)] *)

Module Number.

Local Open Scope Z_scope.

(** Nearest integer to [num / den], ties to even ([den > 0], [num >= 0]). *)
Definition roundHalfEven (num den : Z) : Z :=
  let q := num / den in
  let r := num mod den in
  match 2 * r ?= den with
  | Lt => q
  | Gt => q + 1
  | Eq => if Z.even q then q else q + 1
  end.

(** [p / d] scaled by [2^-e], as a fraction of positive integers. *)
Definition scaledNum (p : Z) (e : Z) : Z := p * 2 ^ Z.max 0 (- e).
Definition scaledDen (d : Z) (e : Z) : Z := d * 2 ^ Z.max 0 e.

(** The binary exponent of the last place of the double nearest to [p / d]:
    the [e] with [2^52 <= (p / d) / 2^e < 2^53]. *)
Definition ulpExponent (p d : Z) : Z :=
  let e0 := Z.log2 p - Z.log2 d - 53 in
  if scaledNum p e0 <? scaledDen d e0 * 2 ^ 53 then e0 else e0 + 1.

(** The 53-bit significand of the double nearest to [p / d]. *)
Definition significand (p d : Z) : Z :=
  let e := ulpExponent p d in
  roundHalfEven (scaledNum p e) (scaledDen d e).

Definition pow2 (e : Z) : Q :=
  if 0 <=? e then inject_Z (2 ^ e) else 1 # Z.to_pos (2 ^ (- e)).

(** Round-to-nearest-even of a rational to binary64 (the exponent range is
    not modelled: the quotients of the handler lie between 1 and 5). *)
Definition roundToDouble (x : Q) : Q :=
  match Qnum x with
  | Z0 => 0%Q
  | Zpos p =>
      (inject_Z (significand (Zpos p) (Zpos (Qden x)))
       * pow2 (ulpExponent (Zpos p) (Zpos (Qden x))))%Q
  | Zneg p =>
      (- (inject_Z (significand (Zpos p) (Zpos (Qden x)))
          * pow2 (ulpExponent (Zpos p) (Zpos (Qden x)))))%Q
  end.

(** [a / b] on two integer-valued numbers, [b > 0]. *)
Definition divide (a b : Z) : Q := roundToDouble (a # Z.to_pos b).

(** The same quotient as the kernel's binary64 division computes it, to
    compare the two. *)
Definition kernelQuotient (a b : Z) : SpecFloat.spec_float :=
  FloatOps.Prim2SF
    (PrimFloat.div (PrimFloat.of_uint63 (Uint63.of_Z a))
                   (PrimFloat.of_uint63 (Uint63.of_Z b))).

Definition agreesWithKernel (a b : Z) : bool :=
  match kernelQuotient a b with
  | SpecFloat.S754_finite false m e =>
      (Z.pos m =? significand a b) && (e =? ulpExponent a b)
  | _ => false
  end.

(** Every total and length a journal of at most [maxLength] entries can
    give: [length <= total <= 5 * length]. *)
Definition quotientsUpTo (maxLength : nat) : list (Z * Z) :=
  flat_map (fun l : nat =>
              map (fun k : nat => (Z.of_nat (l + k), Z.of_nat l))
                  (seq 0 (4 * l + 1)))
           (seq 1 maxLength).

(** [toFixed(1)] picks the integer [n] for which [n / 10 - x] is closest to
    zero, the larger one when there are two ([x >= 0]). *)
Definition tenths (x : Q) : Z := Qfloor (x * 10 + (1 # 2))%Q.

Definition digits (n : Z) : string := NilZero.string_of_uint (N.to_uint (Z.to_N n)).

(** The decimal string with one fractional digit for [n] tenths, [n >= 0]. *)
Definition fixed1 (n : Z) : string :=
  (digits (n / 10) ++ "." ++ digits (n mod 10))%string.

Definition toFixed1 (x : Q) : string :=
  match Qnum x with
  | Zneg _ => ("-" ++ fixed1 (tenths (- x)%Q))%string
  | _ => fixed1 (tenths x)
  end.

End Number.

(** ** Dates *)

Module Calendar.

Local Open Scope Z_scope.

Definition msPerDay : Z := 86400000.

(** ECMAScript's [Day(t)]. *)
Definition Day (t : Z) : Z := t / msPerDay.

(** A [Date] object: its time value, NaN for an Invalid Date. *)
Inductive JSDate : Type :=
| InvalidDate
| DateAt (t : Z).

(** The calendar day a time value falls on when the offset from UTC in
    force at that instant is [tza] milliseconds (ECMAScript's
    [Day(t + LocalTZA)]).  The year, month and date a [Date] reports are
    those of this day. *)
Definition localDay (tza t : Z) : Z := Day (t + tza).

(** [toDateString()]: the local calendar day, written out. *)
Inductive DateString : Type :=
| InvalidDateString
| CalendarDay (day : Z).

Definition toDateString (tza : Z) (d : JSDate) : DateString :=
  match d with
  | InvalidDate => InvalidDateString
  | DateAt t => CalendarDay (localDay tza t)
  end.

(** [new Date(s)] on a string that [toDateString] wrote: midnight of that
    day in the zone of the reader. *)
Definition parseDateString (tza : Z) (s : DateString) : JSDate :=
  match s with
  | InvalidDateString => InvalidDate
  | CalendarDay d => DateAt (d * msPerDay - tza)
  end.

(** A time zone as ECMAScript reads it.  [offsetAt t] is
    [LocalTZA(t, true)]: the offset from UTC, in milliseconds, in force at
    the instant [t]; it changes where the zone shifts its clocks.
    [utcOf l] is [UTC(l)]: the instant the local time value [l] stands
    for; where a shift skips or repeats a local time the engine settles on
    one instant. *)
Record Zone : Type := {
  offsetAt : Z -> Z;
  utcOf : Z -> Z
}.

(** [LocalTime(t)] *)
Definition LocalTime (zone : Zone) (t : Z) : Z := t + offsetAt zone t.

(** The calendar day an instant falls on in a zone, with the offset in
    force at that instant. *)
Definition dayIn (zone : Zone) (t : Z) : Z := localDay (offsetAt zone t) t.

(** A zone that never shifts its clocks. *)
Definition fixedZone (tza : Z) : Zone :=
  {| offsetAt := fun _ => tza; utcOf := fun l => l - tza |}.

(** A zone that keeps the offset [standard] and, from the instant [start]
    up to the instant [stop], the larger offset [summer].  A local time
    that a shift skips or repeats is read with the offset in force before
    the shift, as ECMAScript asks. *)
Definition shiftingZone (standard summer start stop : Z) : Zone :=
  {| offsetAt := fun t =>
       if (start <=? t) && (t <? stop) then summer else standard;
     utcOf := fun l =>
       if l - summer <? start then l - standard
       else if l - summer <? stop then l - summer
       else l - standard |}.

(** [d.getFullYear() === t.getFullYear() && d.getMonth() === t.getMonth()
    && d.getDate() === t.getDate()]: year, month and date are those of the
    local calendar day; each getter of an Invalid Date is NaN, and
    [NaN === x] is false. *)
Definition sameCalendarDay (zone : Zone) (d t : JSDate) : bool :=
  match d, t with
  | DateAt a, DateAt b => dayIn zone a =? dayIn zone b
  | _, _ => false
  end.

(** [t.setDate(t.getDate() - 1)]: the local time value one calendar day
    earlier, at the same time of day, turned back into an instant
    ([UTC(MakeDate(Day(LocalTime(t)) - 1, TimeWithinDay(LocalTime(t))))]). *)
Definition previousDay (zone : Zone) (t : JSDate) : JSDate :=
  match t with
  | InvalidDate => InvalidDate
  | DateAt a => DateAt (utcOf zone (LocalTime zone a - msPerDay))
  end.

(** [a < b] on dates compares time values; a comparison with NaN is false. *)
Definition before (a b : JSDate) : bool :=
  match a, b with
  | DateAt x, DateAt y => x <? y
  | _, _ => false
  end.

(** [b - a] on dates; [None] is NaN. *)
Definition minus (b a : JSDate) : option Z :=
  match b, a with
  | DateAt y, DateAt x => Some (y - x)
  | _, _ => None
  end.

End Calendar.

(** ** [Array.prototype.sort]

    ECMAScript fixes the result of [sort] when the comparator is
    consistent and leaves it to the engine otherwise.  [(a, b) => b - a] on
    dates is consistent as long as every date is valid; on an Invalid Date
    it returns NaN.  The handler's [sort] is therefore a parameter of the
    world it runs in.  This module holds the one engine the properties
    evaluate: V8, which runs Node.js. *)

Module Engine.

Section Sorting.

Variable A : Type.

(** The function handed to [sort]; [None] stands for a NaN result. *)
Variable comparefn : A -> A -> option Z.

(** The engine reads a NaN from the comparator as +0. *)
Definition Compare (x y : A) : Z :=
  match comparefn x y with
  | Some v => v
  | None => 0
  end.

(** V8's [CountAndMakeRun]: how many elements after the second go on with
    the run the first two began, a strictly descending one or else one
    that does not descend. *)
Fixpoint countRun (isDescending : bool) (previous : A) (rest : list A) : nat :=
  match rest with
  | [] => O
  | current :: rest' =>
      let order := Compare current previous in
      if (if isDescending then 0 <=? order else order <? 0) then O
      else S (countRun isDescending current rest')
  end.

(** The binary search of V8's [BinaryInsertionSort] for the place of
    [pivot] in the run before it; [steps] bounds the halvings. *)
Fixpoint insertionPoint (steps : nat) (pivot : A) (run : list A)
  (left right : nat) : nat :=
  match steps with
  | O => left
  | S steps' =>
      if (left <? right)%nat then
        let mid := (left + Nat.div2 (right - left))%nat in
        if Compare pivot (nth mid run pivot) <? 0
        then insertionPoint steps' pivot run left mid
        else insertionPoint steps' pivot run (S mid) right
      else left
  end.

Definition place (pivot : A) (run : list A) : list A :=
  let left := insertionPoint (List.length run) pivot run 0 (List.length run) in
  firstn left run ++ pivot :: skipn left run.

Fixpoint binaryInsertionSort (run pending : list A) : list A :=
  match pending with
  | [] => run
  | pivot :: pending' => binaryInsertionSort (place pivot run) pending'
  end.

(** V8's sort of an array of fewer than 64 elements: the run the array
    begins with, reversed when it descends, and every later element placed
    into it by binary insertion.  (From 64 elements on V8 cuts the array
    into several such runs and merges them; that part is not modelled, and
    the properties evaluate this function on short arrays only.) *)
Definition shortArraySort (l : list A) : list A :=
  match l with
  | high :: low :: rest =>
      let isDescending := Compare low high <? 0 in
      let runLength := S (S (countRun isDescending low rest)) in
      let run := firstn runLength l in
      binaryInsertionSort (if isDescending then rev run else run)
                          (skipn runLength l)
  | _ => l
  end.

End Sorting.

Arguments Compare {A}.
Arguments countRun {A}.
Arguments insertionPoint {A}.
Arguments place {A}.
Arguments binaryInsertionSort {A}.
Arguments shortArraySort {A}.

End Engine.

(** ** JournalPage.jsx: the codec *)

Module Codec.

Import JS Calendar.
Local Open Scope string_scope.

(** The part of CryptoJS the page calls.  [AES_encrypt text key salt] is
    [CryptoJS.AES.encrypt(text, key).toString()], the salt being the random
    bytes the library draws; [AES_decrypt] is [CryptoJS.AES.decrypt];
    [Utf8_stringify bytes] is [bytes.toString(CryptoJS.enc.Utf8)], which
    throws on malformed UTF-8. *)
Record CipherLibrary : Type := {
  Entropy : Type;
  WordArray : Type;
  AES_encrypt : string -> string -> Entropy -> Completion string;
  AES_decrypt : string -> string -> Completion WordArray;
  Utf8_stringify : WordArray -> Completion string
}.

(** What the library promises: what it encrypted under a key it decrypts
    under that key to the same text. *)
Definition Lawful (lib : CipherLibrary) : Prop :=
  forall text key salt c,
    AES_encrypt lib text key salt = Normal c ->
    exists bytes,
      AES_decrypt lib c key = Normal bytes /\
      Utf8_stringify lib bytes = Normal text.

Definition FailedToDecrypt : string := "⚠️ Failed to decrypt".
Definition InvalidEntry : string := "⚠️ Invalid entry (cannot decrypt)".

(** The six moods the page offers. *)
Definition moods : list string := ["😊"; "😔"; "😡"; "😱"; "😴"; "❤️"].

Definition encryptText (lib : CipherLibrary) (SECRET_KEY : string)
  (salt : Entropy lib) (text : string) : Completion string :=
  AES_encrypt lib text SECRET_KEY salt.

Definition decryptText (lib : CipherLibrary) (SECRET_KEY : string)
  (ciphertext : string) : Completion string :=
  tryCatch
    (bind (AES_decrypt lib ciphertext SECRET_KEY) (fun bytes =>
     bind (Utf8_stringify lib bytes) (fun s =>
     Normal (orElse s FailedToDecrypt))))
    (Normal InvalidEntry).

(** A record as the server returns it, and as the page keeps it. *)
Record StoredEntry : Type := {
  stored_text : string;
  stored_mood : string;
  createdAt : JSDate
}.

Record ViewEntry : Type := {
  text : string;
  mood : string;
  dateOnly : DateString
}.

(** The callback of [res.data.map] in [fetchEntries]; [tza] is the zone of
    the browser. *)
Definition viewOf (lib : CipherLibrary) (SECRET_KEY : string) (tza : Z)
  (e : StoredEntry) : Completion ViewEntry :=
  bind (decryptText lib SECRET_KEY (stored_text e)) (fun t =>
  Normal {| text := t;
            mood := stored_mood e;
            dateOnly := toDateString tza (createdAt e) |}).

Definition fetchEntries (lib : CipherLibrary) (SECRET_KEY : string) (tza : Z)
  (data : list StoredEntry) : Completion (list ViewEntry) :=
  mapM (viewOf lib SECRET_KEY tza) data.

(** [dateOnly] of [tempEntry] in [handleSubmit], which is also what the
    page posts: the day of the browser's clock in the browser's zone. *)
Definition submittedDateOnly (tza now : Z) : DateString :=
  toDateString tza (DateAt now).

(** The body [handleSubmit] posts. *)
Record PostBody : Type := {
  post_text : string;
  post_mood : string;
  post_dateOnly : DateString
}.

(** What [handleSubmit] does with what the user typed: it shows a message
    and posts nothing, or it posts. *)
Inductive Submission : Type :=
| Refused (message : string)
| Posted (body : PostBody).

(** [handleSubmit] for a signed-in user.  [trim] is
    [String.prototype.trim]; [tza] and [now] are the zone and the clock of
    the browser, [salt] what the library draws. *)
Definition handleSubmit (lib : CipherLibrary) (SECRET_KEY : string)
  (trim : string -> string) (tza now : Z) (salt : Entropy lib)
  (entry mood : string) : Completion Submission :=
  if negb (truthy (trim entry)) then
    Normal (Refused "Please write something before saving.")
  else if negb (truthy mood) then
    Normal (Refused "Please select your current mood.")
  else
    bind (encryptText lib SECRET_KEY salt entry) (fun encryptedText =>
    Normal (Posted {| post_text := encryptedText;
                      post_mood := mood;
                      post_dateOnly := submittedDateOnly tza now |})).

(** *** A reference instance of the interface

    A one-byte XOR under the first byte of the key, the salt in front.  It
    is no cipher to use; it shows the contract has an instance and lets the
    page's functions run. *)

Definition xorAscii (a k : ascii) : ascii :=
  match a, k with
  | Ascii a0 a1 a2 a3 a4 a5 a6 a7, Ascii k0 k1 k2 k3 k4 k5 k6 k7 =>
      Ascii (xorb a0 k0) (xorb a1 k1) (xorb a2 k2) (xorb a3 k3)
            (xorb a4 k4) (xorb a5 k5) (xorb a6 k6) (xorb a7 k7)
  end.

Definition keyByte (key : string) : ascii :=
  match key with
  | EmptyString => zero
  | String k _ => k
  end.

Fixpoint xorString (k : ascii) (s : string) : string :=
  match s with
  | EmptyString => EmptyString
  | String a s' => String (xorAscii a k) (xorString k s')
  end.

Definition xorLibrary : CipherLibrary := {|
  Entropy := ascii;
  WordArray := string;
  AES_encrypt := fun text key salt =>
    Normal (String salt (xorString (keyByte key) text));
  AES_decrypt := fun c key =>
    match c with
    | EmptyString => Throw "no salt"
    | String _ body => Normal (xorString (keyByte key) body)
    end;
  Utf8_stringify := fun bytes => Normal bytes
|}.

End Codec.

(** ** routes/stats.js: the statistics handler *)

Module Stats.

Import JS Calendar.
Local Open Scope Z_scope.

(** What the handler reads of a journal document.  [dateOnly] stands for
    the object [new Date(j.dateOnly)] builds from the stored value. *)
Record JournalEntry : Type := {
  mood : string;
  dateOnly : JSDate
}.

Definition moodMap : list (string * Z) :=
  [("Very Sad"%string, 1); ("Sad"%string, 2); ("Neutral"%string, 3);
   ("Happy"%string, 4); ("Very Happy"%string, 5)].

(** The names every object literal inherits from [Object.prototype]. *)
Definition ObjectPrototype : list string :=
  ["constructor"; "hasOwnProperty"; "isPrototypeOf"; "propertyIsEnumerable";
   "toLocaleString"; "toString"; "valueOf"; "__proto__";
   "__defineGetter__"; "__defineSetter__"; "__lookupGetter__";
   "__lookupSetter__"]%string.

Fixpoint ownProperty (key : string) (o : list (string * Z)) : option Z :=
  match o with
  | [] => None
  | (k, v) :: o' => if String.eqb key k then Some v else ownProperty key o'
  end.

(** [moodMap[key]]: an own property, else one found on the prototype (a
    function, or the prototype itself for [__proto__]), else undefined. *)
Inductive Property : Type :=
| Own (n : Z)
| Inherited
| Undefined.

Definition get (key : string) : Property :=
  match ownProperty key moodMap with
  | Some n => Own n
  | None =>
      if existsb (String.eqb key) ObjectPrototype then Inherited else Undefined
  end.

(** [moodMap[j.mood] || 3]: zero and undefined are falsy, an object is not. *)
Inductive Operand : Type :=
| Numeric (n : Z)
| Object.

Definition moodOperand (m : string) : Operand :=
  match get m with
  | Own n => if n =? 0 then Numeric 3 else Numeric n
  | Inherited => Object
  | Undefined => Numeric 3
  end.

(** The accumulator of [reduce]: a number, or, once [+] has met an object,
    the text it concatenated (no numeral: it holds the object's source
    text). *)
Inductive Sum : Type :=
| Total (z : Z)
| Text.

Definition add (sum : Sum) (v : Operand) : Sum :=
  match sum, v with
  | Total s, Numeric n => Total (s + n)
  | _, _ => Text
  end.

Definition totalMood (journals : list JournalEntry) : Sum :=
  fold_left (fun sum j => add sum (moodOperand (mood j))) journals (Total 0).

Definition averageMood (journals : list JournalEntry) : Value :=
  if 0 <? Z.of_nat (List.length journals) then
    match totalMood journals with
    | Total t =>
        Str (Number.toFixed1 (Number.divide t (Z.of_nat (List.length journals))))
    | Text => Str "NaN"
    end
  else Num 0.

(** [(a, b) => b - a] *)
Definition comparator (a b : JSDate) : option Z := minus b a.

(** [for (let d of dates) { ... }] with the cursor [today] and the counter
    [streak]. *)
Fixpoint streakLoop (zone : Zone) (dates : list JSDate) (today : JSDate)
  (streak : Z) : Z :=
  match dates with
  | [] => streak
  | d :: rest =>
      if sameCalendarDay zone d today then
        streakLoop zone rest (previousDay zone today) (streak + 1)
      else if before d today then streak
      else streakLoop zone rest today streak
  end.

(** What the handler reads of its surroundings: the wall clock and the time
    zone of the server, and the [Array.prototype.sort] of the engine that
    runs it. *)
Record World : Type := {
  clock : Z;
  zone : Zone;
  Array_sort : (JSDate -> JSDate -> option Z) -> list JSDate -> list JSDate
}.

(** [new Date()] *)
Definition Date_now (w : World) : JSDate := DateAt (clock w).

Definition dates (w : World) (journals : list JournalEntry) : list JSDate :=
  Array_sort w comparator (map dateOnly journals).

Definition streak (w : World) (journals : list JournalEntry) : Z :=
  if 0 <? Z.of_nat (List.length journals) then
    streakLoop (zone w) (dates w journals) (Date_now w) 0
  else 0.

(** The fields of the response the handler computes itself. *)
Record StatsSummary : Type := {
  totalEntries : Z;
  summaryAverageMood : Value;
  summaryStreak : Z
}.

(** Lines 19 to 53 of the handler, given what its two queries returned:
    [counted] from [JournalEntry.countDocuments], [journals] from
    [JournalEntry.find]. *)
Definition statsHandler (w : World) (counted : Z)
  (journals : list JournalEntry) : StatsSummary :=
  {| totalEntries := counted;
     summaryAverageMood := averageMood journals;
     summaryStreak := streak w journals |}.

End Stats.

(** ** Vocabulary of the properties *)

Module Spec.

Import JS Calendar Stats.
Local Open Scope Z_scope.

(** The stored date of the entry parses. *)
Definition parsed (j : JournalEntry) : Prop :=
  exists t, dateOnly j = DateAt t.

(** The entry lies on calendar day [day] of the zone. *)
Definition onDay (zone : Zone) (j : JournalEntry) (day : Z) : Prop :=
  exists t, dateOnly j = DateAt t /\ dayIn zone t = day.

(** Some entry of the journal lies on [day]. *)
Definition hasEntry (zone : Zone) (journals : list JournalEntry) (day : Z)
  : Prop :=
  exists j, In j journals /\ onDay zone j day.

(** The [n] calendar days ending at [today] hold an entry each, and the
    day before them holds none: [n] consecutive days, stopped by the first
    gap. *)
Definition consecutiveRun (present : Z -> Prop) (today n : Z) : Prop :=
  0 <= n /\
  (forall i, 0 <= i < n -> present (today - i)) /\
  ~ present (today - n).

(** The calendar day the handler takes for today. *)
Definition today (w : World) : Z := dayIn (zone w) (clock w).

(** The calendar days of a zone follow its clock: a later instant never
    falls on an earlier day, and the instant a local time is read as falls
    on the calendar day of that local time.  Both hold where the clocks are
    never shifted, and where every shift stays within one calendar day. *)
Definition Orderly (zone : Zone) : Prop :=
  (forall a b, a <= b -> dayIn zone a <= dayIn zone b) /\
  (forall l, dayIn zone (utcOf zone l) = Day l).

(** Most recent first. *)
Fixpoint descending (l : list Z) : Prop :=
  match l with
  | [] => True
  | x :: l' => (forall y, In y l' -> y <= x) /\ descending l'
  end.

(** What ECMAScript asks of [sort] under [(a, b) => b - a] when every date
    is valid, the comparator being consistent then: the same dates, most
    recent first. *)
Definition SortsDates
  (sort : (JSDate -> JSDate -> option Z) -> list JSDate -> list JSDate)
  : Prop :=
  forall ts,
    exists ts',
      sort comparator (map DateAt ts) = map DateAt ts' /\
      Permutation ts ts' /\
      descending ts'.


(** A world whose zone is orderly and whose engine sorts valid dates. *)
Definition Conforming (w : World) : Prop :=
  Orderly (zone w) /\ SortsDates (Array_sort w).

(** The comparator [(a, b) => b - a] read on the time values of valid
    dates. *)
Definition byTime (a b : Z) : option Z := Some (b - a).

(** An entry dated as the page dates it: the server reads the posted day
    string as midnight of that day in its own zone, here one of constant
    offset. *)
Definition entryOn (tza : Z) (m : string) (day : Z) : JournalEntry :=
  {| mood := m; dateOnly := parseDateString tza (CalendarDay day) |}.

(** The same in any zone: [new Date(s)] on a day string is the instant of
    local midnight. *)
Definition entryAt (zone : Zone) (m : string) (day : Z) : JournalEntry :=
  {| mood := m; dateOnly := DateAt (utcOf zone (day * msPerDay)) |}.

(** An entry whose stored date does not parse. *)
Definition undated (m : string) : JournalEntry :=
  {| mood := m; dateOnly := InvalidDate |}.

(** A Node.js server five and a half hours east of Greenwich, at a quarter
    past nine in the evening of its day [day]. *)
Definition eveningOf (day : Z) : World :=
  {| clock := day * msPerDay + 76500000 - 19800000;
     zone := fixedZone 19800000;
     Array_sort := Engine.shortArraySort |}.

(** New York in 2026: five hours west of Greenwich, four from 8 March,
    07:00 UTC (day 20520) to 1 November, 06:00 UTC (day 20758). *)
Definition easternTime2026 : Zone :=
  shiftingZone (-18000000) (-14400000)
               (20520 * msPerDay + 25200000) (20758 * msPerDay + 21600000).

(** A Node.js server in New York at the instant [t]. *)
Definition newYorkAt (t : Z) : World :=
  {| clock := t;
     zone := easternTime2026;
     Array_sort := Engine.shortArraySort |}.

(** The same half an hour after the midnight that begins its day [day],
    a day of the summer of 2026, four hours behind Greenwich. *)
Definition newYorkAfterMidnight (day : Z) : World :=
  newYorkAt (day * msPerDay + 1800000 + 14400000).

(** The score the specification gives a mood: the five named labels 1 to
    5, every other label 3. *)
Definition score (m : string) : Z :=
  if String.eqb m "Very Sad" then 1
  else if String.eqb m "Sad" then 2
  else if String.eqb m "Neutral" then 3
  else if String.eqb m "Happy" then 4
  else if String.eqb m "Very Happy" then 5
  else 3.


(** The mean of a list of scores. *)
Definition mean (scores : list Z) : Q :=
  fold_right Z.add 0 scores # Z.to_pos (Z.of_nat (List.length scores)).

(** The calendar days of the entries whose date parses. *)
Definition daysOf (zone : Zone) (journals : list JournalEntry) : list Z :=
  flat_map (fun j => match dateOnly j with
                     | InvalidDate => []
                     | DateAt t => [dayIn zone t]
                     end) journals.

(** The streak as the specification words it: starting from today, walk
    backward one day at a time; a day that is present counts and moves the
    cursor to the day before, a day that is absent stops the walk.  The
    walk cannot count more days than there are. *)
Fixpoint walkBackward (fuel : nat) (present : Z -> bool) (cursor : Z) : Z :=
  match fuel with
  | O => 0
  | S fuel' =>
      if present cursor then 1 + walkBackward fuel' present (cursor - 1)
      else 0
  end.

Definition computeStreak (days : list Z) (today : Z) : Z :=
  walkBackward (List.length days) (fun d => existsb (Z.eqb d) days) today.

(** The loop of the handler, read on day numbers. *)
Fixpoint dayLoop (days : list Z) (cursor count : Z) : Z :=
  match days with
  | [] => count
  | d :: rest =>
      if d =? cursor then dayLoop rest (cursor - 1) (count + 1)
      else if d <? cursor then count
      else dayLoop rest cursor count
  end.

End Spec.

(** ** JournalPage.jsx: the list of entries on the page *)

Module Page.

Import JS Calendar Codec.
Local Open Scope string_scope.

(** The [id] of an entry on the page: [Date.now()] for the temporary entry
    of a submission, the [_id] of the server for a stored one. *)
Inductive Id : Type :=
| TempId (ms : Z)
| ServerId (s : string).

(** [a !== b]: a number and a string are never equal. *)
Definition differs (a b : Id) : bool :=
  match a, b with
  | TempId x, TempId y => negb (x =? y)%Z
  | ServerId x, ServerId y => negb (String.eqb x y)
  | _, _ => true
  end.

(** A record of the server with its [_id], and an entry of the state
    [entries]. *)
Record ServerEntry : Type := {
  _id : string;
  record : StoredEntry
}.

Record PageEntry : Type := {
  id : Id;
  view : ViewEntry
}.

(** The object both [fetchEntries] and [handleSubmit] build from a record
    of the server: [{...e, id: e._id, text: decryptText(e.text), ...}]. *)
Definition pageEntryOf (lib : CipherLibrary) (SECRET_KEY : string) (tza : Z)
  (e : ServerEntry) : Completion PageEntry :=
  bind (viewOf lib SECRET_KEY tza (record e)) (fun v =>
  Normal {| id := ServerId (_id e); view := v |}).

(** [res.data] of the GET: an array of records, or something else. *)
Inductive ResponseData : Type :=
| NotAnArray
| Records (data : list ServerEntry).

(** The state [entries] after the effect [fetchEntries] ran, given the
    outcome of the request. *)
Definition afterFetch (lib : CipherLibrary) (SECRET_KEY : string) (tza : Z)
  (response : Completion ResponseData) (entries : list PageEntry)
  : Completion (list PageEntry) :=
  tryCatch
    (bind response (fun res =>
     match res with
     | NotAnArray => Normal entries
     | Records data => mapM (pageEntryOf lib SECRET_KEY tza) data
     end))
    (Normal entries).

(** [tempEntry] of [handleSubmit]; [idNow] and [now] are the readings of
    the clock for [Date.now()] and [new Date()]. *)
Definition tempEntry (tza idNow now : Z) (entry mood : string) : PageEntry :=
  {| id := TempId idNow;
     view := {| text := entry;
                mood := mood;
                dateOnly := submittedDateOnly tza now |} |}.

(** The state after the POST of [handleSubmit] came back: on success
    [[saved, ...prev.filter((en) => en.id !== tempEntry.id)]], on failure
    what it was. *)
Definition afterPost (lib : CipherLibrary) (SECRET_KEY : string) (tza : Z)
  (tempId : Id) (response : Completion ServerEntry) (prev : list PageEntry)
  : Completion (list PageEntry) :=
  tryCatch
    (bind response (fun res =>
     bind (pageEntryOf lib SECRET_KEY tza res) (fun saved =>
     Normal (saved :: filter (fun en => differs (id en) tempId) prev))))
    (Normal prev).

(** [handleDelete]: nothing without a token; after the DELETE succeeded
    [prev.filter((e) => e.id !== entryId)]; after it failed what it was. *)
Definition handleDelete (token : string) (request : Completion unit)
  (entryId : Id) (prev : list PageEntry) : Completion (list PageEntry) :=
  if negb (truthy token) then Normal prev
  else
    tryCatch
      (bind request (fun _ =>
       Normal (filter (fun e => differs (id e) entryId) prev)))
      (Normal prev).

(** [a === b] on two date strings. *)
Definition sameDateString (a b : DateString) : bool :=
  match a, b with
  | InvalidDateString, InvalidDateString => true
  | CalendarDay x, CalendarDay y => (x =? y)%Z
  | _, _ => false
  end.

(** [filteredEntries]: [selectedDate] is [null] or the [Date] the calendar
    handed over. *)
Definition filteredEntries (tza : Z) (selectedDate : option JSDate)
  (entries : list PageEntry) : list PageEntry :=
  match selectedDate with
  | None => entries
  | Some d =>
      filter (fun e => sameDateString (dateOnly (view e)) (toDateString tza d))
             entries
  end.






End Page.

(** ** routes/stats.js: the request as a whole *)

Module Route.

Import JS Calendar Stats.
Local Open Scope Z_scope.






End Route.

(** ** server.js: where the routers are mounted *)

Module Server.

Local Open Scope string_scope.

(** Express compares paths without regard to case. *)
Definition lower (c : ascii) : ascii :=
  let n := nat_of_ascii c in
  if ((65 <=? n) && (n <=? 90))%nat then ascii_of_nat (n + 32) else c.

(** What is left of [path] after the prefix [mount], if it starts with
    it. *)
Fixpoint stripPrefix (mount path : string) : option string :=
  match mount with
  | EmptyString => Some path
  | String m mount' =>
      match path with
      | EmptyString => None
      | String p path' =>
          if Ascii.eqb (lower m) (lower p) then stripPrefix mount' path'
          else None
      end
  end.

(** After a mount path the request path ends or goes on with a slash. *)
Definition atBoundary (rest : string) : bool :=
  match rest with
  | EmptyString => true
  | String c _ => Ascii.eqb c "/"
  end.

(** [app.use(mount, router)] hands a request to the router when its path
    starts with [mount] up to a segment boundary. *)
Definition mounted (mount path : string) : bool :=
  match stripPrefix mount path with
  | Some rest => atBoundary rest
  | None => false
  end.

Definition mounts : list (string * string) :=
  [("/api/auth", "authRoutes");
   ("/api/community", "communityRoutes");
   ("/api/journal", "journalRoutes");
   ("/api/journals/stats", "statsRoutes");
   ("/api/ai", "aiRoutes")].

(** The routers a request path reaches, in the order they were mounted. *)
Definition routersFor (path : string) : list string :=
  map snd (filter (fun m => mounted (fst m) path) mounts).

End Server.

(** ** Vocabulary of the properties of the page *)

Module PageSpec.

Import Calendar Codec Page.
Local Open Scope Z_scope.

(** The record was created during calendar day [day] of the zone: from
    midnight to midnight, local time. *)
Definition createdOn (tza day : Z) (e : ServerEntry) : bool :=
  match createdAt (record e) with
  | InvalidDate => false
  | DateAt t =>
      (day * msPerDay <=? t + tza) && (t + tza <? (day + 1) * msPerDay)
  end.

(** The entry as the page shows a record whose text decrypts to [shown]. *)
Definition shownAs (tza : Z) (e : ServerEntry) (shown : string) : PageEntry :=
  {| id := ServerId (_id e);
     view := {| text := shown;
                mood := stored_mood (record e);
                dateOnly := toDateString tza (createdAt (record e)) |} |}.

End PageSpec.

(* ================================================================== *)
(** * Part II: properties *)
(* ================================================================== *)

(** ** The codec *)

Section CodecProperties.

Import JS Calendar Codec.
Local Open Scope string_scope.

Variable lib : CipherLibrary.
Variable SECRET_KEY : string.

Lemma orElse_nonempty (s d : string) : s <> "" -> orElse s d = s.
Proof. destruct s; [congruence | reflexivity]. Qed.

Lemma orElse_empty (d : string) : orElse "" d = d.
Proof. reflexivity. Qed.

(** The three ways [decryptText] ends, by what the library did. *)
Lemma decryptText_cases (ciphertext : string) :
  (decryptText lib SECRET_KEY ciphertext = Normal InvalidEntry /\
   ((exists r, AES_decrypt lib ciphertext SECRET_KEY = Throw r) \/
    (exists bytes r, AES_decrypt lib ciphertext SECRET_KEY = Normal bytes /\
                     Utf8_stringify lib bytes = Throw r))) \/
  (decryptText lib SECRET_KEY ciphertext = Normal FailedToDecrypt /\
   exists bytes, AES_decrypt lib ciphertext SECRET_KEY = Normal bytes /\
                 Utf8_stringify lib bytes = Normal "") \/
  (exists bytes s, AES_decrypt lib ciphertext SECRET_KEY = Normal bytes /\
                   Utf8_stringify lib bytes = Normal s /\ s <> "" /\
                   decryptText lib SECRET_KEY ciphertext = Normal s).
Proof.
  unfold decryptText.
  destruct (AES_decrypt lib ciphertext SECRET_KEY) as [bytes | r] eqn:Hd; cbn.
  - destruct (Utf8_stringify lib bytes) as [s | r] eqn:Hs; cbn.
    + destruct s as [| a s'].
      * right; left. split; [reflexivity | now exists bytes].
      * right; right. exists bytes, (String a s').
        repeat split; auto; discriminate.
    + left. split; [reflexivity | right; now exists bytes, r].
  - left. split; [reflexivity | left; now exists r].
Qed.

Lemma decryptText_returns (ciphertext : string) :
  exists s, decryptText lib SECRET_KEY ciphertext = Normal s.
Proof.
  destruct (decryptText_cases ciphertext) as [[H _] | [[H _] | (b & s & _ & _ & _ & H)]];
    eauto.
Qed.

Lemma fetchEntries_returns (tza : Z) (data : list StoredEntry) :
  exists views,
    fetchEntries lib SECRET_KEY tza data = Normal views /\
    Forall2 (fun e v =>
               decryptText lib SECRET_KEY (stored_text e) = Normal (text v) /\
               mood v = stored_mood e /\
               dateOnly v = toDateString tza (createdAt e))
            data views.
Proof.
  unfold fetchEntries.
  induction data as [| e data IH]; cbn.
  - exists []. split; [reflexivity | constructor].
  - destruct IH as (views & Hv & Hall).
    destruct (decryptText_returns (stored_text e)) as [s Hs].
    unfold viewOf at 1. rewrite Hs; cbn. rewrite Hv; cbn.
    eexists. split; [reflexivity |].
    constructor; [cbn; auto | exact Hall].
Qed.

End CodecProperties.

Section ReferenceCipher.

Import JS Codec.
Local Open Scope string_scope.

Lemma xorAscii_involutive (a k : ascii) : xorAscii (xorAscii a k) k = a.
Proof.
  destruct a, k; cbn.
  repeat rewrite xorb_assoc, xorb_nilpotent, xorb_false_r.
  reflexivity.
Qed.

Lemma xorString_involutive (k : ascii) (s : string) :
  xorString k (xorString k s) = s.
Proof.
  induction s as [| a s IH]; cbn; [reflexivity |].
  now rewrite xorAscii_involutive, IH.
Qed.

Lemma xorLibrary_lawful : Lawful xorLibrary.
Proof.
  intros text key salt c H. cbn in H. injection H as <-.
  exists text. cbn. now rewrite xorString_involutive.
Qed.

End ReferenceCipher.

Import JS Calendar Codec.

(** C1 (as amended): for every non-empty plaintext, every key and every
    salt the library draws, [decryptText] applied to what [encryptText]
    returned under the same key gives the plaintext back exactly; and every
    entry [handleSubmit] posts is non-empty, so what it posts decrypts to
    what the user typed. *)
Theorem decryptText_encryptText_nonempty :
  forall (lib : CipherLibrary) (SECRET_KEY : string),
    Lawful lib ->
    (forall (salt : Entropy lib) (text c : string),
        text <> ""%string ->
        encryptText lib SECRET_KEY salt text = Normal c ->
        decryptText lib SECRET_KEY c = Normal text) /\
    (forall (trim : string -> string) (tza now : Z) (salt : Entropy lib)
            (entry mood : string) (body : PostBody),
        trim ""%string = ""%string ->
        handleSubmit lib SECRET_KEY trim tza now salt entry mood
        = Normal (Posted body) ->
        entry <> ""%string /\
        decryptText lib SECRET_KEY (post_text body) = Normal entry).
Proof.
  intros lib key Hlaw.
  assert (Hround : forall (salt : Entropy lib) (text c : string),
             text <> ""%string ->
             encryptText lib key salt text = Normal c ->
             decryptText lib key c = Normal text).
  { intros salt text c Hne Henc.
    destruct (Hlaw text key salt c Henc) as (bytes & Hd & Hs).
    unfold decryptText. rewrite Hd; cbn. rewrite Hs; cbn.
    now rewrite orElse_nonempty. }
  split; [exact Hround |].
  intros trim tza now salt entry mood body Htrim Hpost.
  unfold handleSubmit in Hpost.
  assert (Hne : entry <> ""%string).
  { intros ->. rewrite Htrim in Hpost. discriminate. }
  split; [exact Hne |].
  destruct (truthy (trim entry)); [| discriminate].
  destruct (truthy mood); [| discriminate].
  cbn in Hpost.
  destruct (encryptText lib key salt entry) as [c | r] eqn:Henc;
    [| discriminate].
  cbn in Hpost. injection Hpost as <-. cbn.
  exact (Hround salt entry c Hne Henc).
Qed.

Lemma decryptText_encryptText_nonempty_witness :
  exists c,
    encryptText xorLibrary "key" "s"%char "Dear diary" = Normal c /\
    decryptText xorLibrary "key" c = Normal "Dear diary"%string.
Proof.
  eexists. split; [reflexivity |].
  apply (proj1 (decryptText_encryptText_nonempty xorLibrary "key"
                  xorLibrary_lawful) "s"%char "Dear diary"%string).
  - discriminate.
  - reflexivity.
Defined.

(** C1 as stated fails at the empty plaintext: under every lawful library
    the empty text decrypts to the placeholder, not to itself. *)
Lemma decryptText_encryptText_empty :
  (forall (lib : CipherLibrary) (SECRET_KEY : string) (salt : Entropy lib)
          (c : string),
      Lawful lib ->
      encryptText lib SECRET_KEY salt "" = Normal c ->
      decryptText lib SECRET_KEY c = Normal FailedToDecrypt) /\
  FailedToDecrypt <> ""%string /\
  (exists c,
      encryptText xorLibrary "key" "s"%char "" = Normal c /\
      decryptText xorLibrary "key" c <> Normal ""%string).
Proof.
  split; [| split].
  - intros lib key salt c Hlaw Henc.
    destruct (Hlaw _ key salt c Henc) as (bytes & Hd & Hs).
    unfold decryptText. rewrite Hd; cbn. now rewrite Hs.
  - discriminate.
  - eexists. split; [reflexivity | discriminate].
Qed.

(** C6: for every ciphertext and key, whatever the library does with them,
    [decryptText] returns normally: the placeholder for an entry that
    cannot be decrypted when the library throws, the placeholder for a
    failed decryption when it yields the empty text, and the decoded text
    otherwise.  [fetchEntries] therefore returns a view of every record it
    was given, the placeholder standing where a text could not be
    recovered. *)
Theorem decryptText_never_throws :
  forall (lib : CipherLibrary) (SECRET_KEY : string),
    (forall ciphertext,
        exists s,
          decryptText lib SECRET_KEY ciphertext = Normal s /\
          (s = InvalidEntry \/ s = FailedToDecrypt \/
           (s <> ""%string /\
            exists bytes,
              AES_decrypt lib ciphertext SECRET_KEY = Normal bytes /\
              Utf8_stringify lib bytes = Normal s))) /\
    (forall tza data,
        exists views,
          fetchEntries lib SECRET_KEY tza data = Normal views /\
          Forall2 (fun e v =>
                     decryptText lib SECRET_KEY (stored_text e)
                     = Normal (text v))
                  data views).
Proof.
  intros lib key. split.
  - intro c.
    destruct (decryptText_cases lib key c)
      as [[H _] | [[H _] | (b & s & Hd & Hs & Hne & H)]].
    + exists InvalidEntry. auto.
    + exists FailedToDecrypt. auto.
    + exists s. split; [exact H |]. right; right. split; [exact Hne |].
      now exists b.
  - intros tza data.
    destruct (fetchEntries_returns lib key tza data) as (views & Hv & Hall).
    exists views. split; [exact Hv |].
    clear Hv.
    induction Hall as [| e v es vs Hev _ IH];
      [constructor | constructor; [exact (proj1 Hev) | exact IH]].
Qed.

(** ** Calendar days *)

Section CalendarProperties.

Import Calendar.
Local Open Scope Z_scope.

Variable tza : Z.

Lemma localDay_monotone (a b : Z) :
  a <= b -> localDay tza a <= localDay tza b.
Proof.
  intro H. unfold localDay, Day.
  apply Z.div_le_mono; [unfold msPerDay |]; lia.
Qed.

Lemma localDay_midnight (day : Z) :
  localDay tza (day * msPerDay - tza) = day.
Proof.
  unfold localDay, Day.
  replace (day * msPerDay - tza + tza) with (day * msPerDay) by ring.
  apply Z.div_mul. unfold msPerDay; lia.
Qed.

End CalendarProperties.

(** ** Time zones *)

Section ZoneProperties.

Import Calendar Spec.
Local Open Scope Z_scope.

Lemma Day_previous (l : Z) : Day (l - msPerDay) = Day l - 1.
Proof.
  unfold Day.
  replace (l - msPerDay) with (l + (-1) * msPerDay) by ring.
  rewrite Z.div_add by (unfold msPerDay; lia). ring.
Qed.

(** A zone that never shifts its clocks is orderly. *)
Lemma fixedZone_orderly (tza : Z) : Orderly (fixedZone tza).
Proof.
  split.
  - intros a b Hab. apply localDay_monotone. exact Hab.
  - intro l. unfold dayIn, localDay. cbn [fixedZone offsetAt utcOf].
    f_equal. ring.
Qed.

(** So is a zone whose shifts stay within a calendar day: the local
    hour the clocks skip and the hour read in its place lie in one day,
    and so does the hour the clocks repeat. *)
Lemma shiftingZone_orderly (standard summer start stop : Z) :
  standard <= summer ->
  Day (start + standard) = Day (start + summer + (summer - standard) - 1) ->
  Day (stop + standard) = Day (stop + summer - 1) ->
  Orderly (shiftingZone standard summer start stop).
Proof.
  intros Hoff Hskip Hrepeat.
  unfold Day, msPerDay in Hskip, Hrepeat.
  split.
  - intros a b Hab.
    unfold dayIn, localDay, Day, shiftingZone, msPerDay.
    cbn [offsetAt].
    destruct (Z.leb_spec start a); destruct (Z.ltb_spec a stop);
      destruct (Z.leb_spec start b); destruct (Z.ltb_spec b stop);
      cbn [andb]; Z.div_mod_to_equations; lia.
  - intro l.
    unfold dayIn, localDay, Day, shiftingZone, msPerDay.
    cbn [offsetAt utcOf].
    destruct (Z.ltb_spec (l - summer) start);
      [| destruct (Z.ltb_spec (l - summer) stop)];
      match goal with
      | |- context [(?lo <=? ?u) && (?u <? ?hi)] =>
          destruct (Z.leb_spec lo u); destruct (Z.ltb_spec u hi)
      end;
      cbn [andb]; Z.div_mod_to_equations; lia.
Qed.

(** New York is such a zone: its clocks shift at two in the morning. *)
Lemma easternTime2026_orderly : Orderly easternTime2026.
Proof.
  apply shiftingZone_orderly; [lia | vm_compute; reflexivity ..].
Qed.

Variable z : Zone.
Hypothesis Hzone : Orderly z.

(** [setDate(getDate() - 1)] lands on the calendar day before, whatever
    the clocks did in between. *)
Lemma dayIn_previous (c : Z) :
  dayIn z (utcOf z (LocalTime z c - msPerDay)) = dayIn z c - 1.
Proof.
  rewrite (proj2 Hzone). apply Day_previous.
Qed.

(** Off the cursor's day, an earlier instant is an earlier day. *)
Lemma before_other_day (a b : Z) :
  dayIn z a <> dayIn z b ->
  (a <? b) = (dayIn z a <? dayIn z b).
Proof.
  intro Hne.
  destruct (Z.ltb_spec a b) as [Hab | Hab];
    destruct (Z.ltb_spec (dayIn z a) (dayIn z b)) as [Hd | Hd];
    try reflexivity.
  - pose proof (proj1 Hzone a b ltac:(lia)). lia.
  - pose proof (proj1 Hzone b a Hab). lia.
Qed.

Lemma descending_days (ts : list Z) :
  descending ts -> descending (map (dayIn z) ts).
Proof.
  induction ts as [| t ts IH]; cbn; [auto |].
  intros [Ht Hd]. split; [| auto].
  intros y Hy. apply in_map_iff in Hy. destruct Hy as (u & <- & Hu).
  apply (proj1 Hzone). auto.
Qed.

End ZoneProperties.

(** ** The engine's sort *)

Section EngineProperties.

Import Engine.

Context {A : Type}.
Variable comparefn : A -> A -> option Z.

Lemma place_permutation (pivot : A) (run : list A) :
  Permutation (pivot :: run) (place comparefn pivot run).
Proof.
  unfold place.
  set (k := insertionPoint _ _ _ _ _ _).
  rewrite <- (firstn_skipn k run) at 1.
  apply Permutation_middle.
Qed.

Lemma binaryInsertionSort_permutation (pending : list A) :
  forall run,
    Permutation (run ++ pending) (binaryInsertionSort comparefn run pending).
Proof.
  induction pending as [| p pending IH]; intro run; cbn.
  - now rewrite app_nil_r.
  - rewrite <- IH. rewrite <- place_permutation.
    symmetry. apply Permutation_middle.
Qed.

(** Whatever the comparator returns, the array keeps its elements. *)
Lemma shortArraySort_permutation (l : list A) :
  Permutation l (shortArraySort comparefn l).
Proof.
  destruct l as [| high [| low rest]]; [reflexivity | reflexivity |].
  unfold shortArraySort.
  set (k := S (S _)).
  rewrite <- binaryInsertionSort_permutation.
  rewrite <- (firstn_skipn k (high :: low :: rest)) at 1.
  apply Permutation_app_tail.
  destruct (Compare comparefn low high <? 0);
    [apply Permutation_rev | reflexivity].
Qed.

End EngineProperties.

Section EngineNaturality.

Import Engine.

Context {A B : Type}.
Variable f : A -> B.
Variable cmpA : A -> A -> option Z.
Variable cmpB : B -> B -> option Z.
Hypothesis Hcmp : forall x y, cmpB (f x) (f y) = cmpA x y.

Lemma Compare_map (x y : A) : Compare cmpB (f x) (f y) = Compare cmpA x y.
Proof. unfold Compare. now rewrite Hcmp. Qed.

Lemma countRun_map (d : bool) (rest : list A) :
  forall prev,
    countRun cmpB d (f prev) (map f rest) = countRun cmpA d prev rest.
Proof.
  induction rest as [| c rest IH]; intro prev; cbn; [reflexivity |].
  rewrite Compare_map, IH. reflexivity.
Qed.

Lemma insertionPoint_map (steps : nat) (pivot : A) (run : list A) :
  forall left right,
    insertionPoint cmpB steps (f pivot) (map f run) left right
    = insertionPoint cmpA steps pivot run left right.
Proof.
  induction steps as [| steps IH]; intros left right; cbn; [reflexivity |].
  rewrite map_nth, Compare_map, !IH. reflexivity.
Qed.

Lemma place_map (pivot : A) (run : list A) :
  place cmpB (f pivot) (map f run) = map f (place cmpA pivot run).
Proof.
  unfold place. rewrite length_map, insertionPoint_map.
  rewrite map_app, firstn_map. cbn [map]. now rewrite skipn_map.
Qed.

Lemma binaryInsertionSort_map (pending : list A) :
  forall run,
    binaryInsertionSort cmpB (map f run) (map f pending)
    = map f (binaryInsertionSort cmpA run pending).
Proof.
  induction pending as [| p pending IH]; intro run; cbn; [reflexivity |].
  now rewrite place_map, IH.
Qed.

(** The sort sees its elements through the comparator only. *)
Lemma shortArraySort_map (l : list A) :
  shortArraySort cmpB (map f l) = map f (shortArraySort cmpA l).
Proof.
  destruct l as [| high [| low rest]]; [reflexivity | reflexivity |].
  unfold shortArraySort. cbn [map].
  rewrite Compare_map, countRun_map.
  set (k := S (S _)).
  change (f high :: f low :: map f rest) with (map f (high :: low :: rest)).
  rewrite skipn_map, firstn_map.
  destruct (Compare cmpA low high <? 0).
  - now rewrite <- map_rev, binaryInsertionSort_map.
  - now rewrite binaryInsertionSort_map.
Qed.

End EngineNaturality.

Section SortedOnTimes.

Import Calendar Engine Stats Spec.
Local Open Scope Z_scope.

Lemma descending_le (x : Z) (l : list Z) :
  descending (x :: l) -> forall y, In y (x :: l) -> y <= x.
Proof.
  intros [Hx _] y [<- | Hy]; [lia | auto].
Qed.

Lemma descending_app (l1 l2 : list Z) :
  descending (l1 ++ l2) <->
  descending l1 /\ descending l2 /\
  (forall a b, In a l1 -> In b l2 -> b <= a).
Proof.
  induction l1 as [| x l1 IH]; cbn.
  - split; [intro H; repeat split; auto; intros ? ? [] | tauto].
  - rewrite IH. split.
    + intros (Hx & H1 & H2 & Hc). repeat split; auto.
      * intros y Hy. apply Hx, in_or_app. now left.
      * intros a b [<- | Ha] Hb; [apply Hx, in_or_app; now right | auto].
    + intros ((Hx & H1) & H2 & Hc). repeat split; auto.
      intros y Hy. apply in_app_or in Hy. destruct Hy as [Hy | Hy]; auto.
Qed.

Lemma descending_nth (l : list Z) (d : Z) :
  descending l ->
  forall i j, (i <= j < List.length l)%nat -> nth j l d <= nth i l d.
Proof.
  induction l as [| x l IH]; intros Hd i j Hij; [cbn in Hij; lia |].
  destruct Hd as [Hx Hd]. destruct i as [| i], j as [| j]; cbn in *;
    try lia.
  - apply Hx, nth_In. lia.
  - apply IH; [exact Hd | lia].
Qed.

(** The binary search ends where the run splits into the times not below
    the pivot and the times below it. *)
Lemma insertionPoint_spec (pivot : Z) (run : list Z) :
  descending run ->
  forall steps left right,
    (right - left <= steps)%nat ->
    (left <= right <= List.length run)%nat ->
    (forall i, (i < left)%nat -> pivot <= nth i run pivot) ->
    (forall i, (right <= i < List.length run)%nat -> nth i run pivot < pivot) ->
    (insertionPoint byTime steps pivot run left right <= List.length run)%nat /\
    (forall i, (i < insertionPoint byTime steps pivot run left right)%nat ->
               pivot <= nth i run pivot) /\
    (forall i,
        (insertionPoint byTime steps pivot run left right <= i
         < List.length run)%nat ->
        nth i run pivot < pivot).
Proof.
  intro Hd.
  induction steps as [| steps IH]; intros left right Hsteps Hlr Hleft Hright;
    cbn [insertionPoint].
  - assert (left = right) by lia. subst right. repeat split; auto; lia.
  - destruct (Nat.ltb_spec left right) as [Hlt | Hge].
    + pose proof (Nat.lt_div2 (right - left) ltac:(lia)) as Hlow.
      pose proof (Nat.div2_decr (right - left) steps ltac:(lia)) as Hhalf.
      remember (Nat.div2 (right - left)) as half eqn:Ehalf. clear Ehalf.
      set (mid := (left + half)%nat).
      assert (Hmid : (left <= mid < right)%nat) by (subst mid; lia).
      unfold Compare, byTime.
      destruct (Z.ltb_spec (nth mid run pivot - pivot) 0) as [Hless | Hmore].
      * apply IH; [subst mid; lia | lia | exact Hleft |].
        intros i Hi.
        pose proof (descending_nth run pivot Hd mid i ltac:(lia)). lia.
      * apply IH; [lia | lia | | exact Hright].
        intros i Hi.
        pose proof (descending_nth run pivot Hd i mid ltac:(lia)). lia.
    + assert (left = right) by lia. subst right. repeat split; auto; lia.
Qed.

Lemma In_firstn_nth (k : nat) (l : list Z) (d x : Z) :
  In x (firstn k l) ->
  exists i, (i < k)%nat /\ (i < List.length l)%nat /\ nth i l d = x.
Proof.
  intro Hin. destruct (In_nth _ _ d Hin) as (i & Hi & Hx).
  rewrite length_firstn in Hi. rewrite nth_firstn in Hx.
  destruct (Nat.ltb_spec i k); [| lia].
  exists i. repeat split; auto; lia.
Qed.

Lemma In_skipn_nth (k : nat) (l : list Z) (d x : Z) :
  In x (skipn k l) ->
  exists i, (k <= i < List.length l)%nat /\ nth i l d = x.
Proof.
  intro Hin. destruct (In_nth _ _ d Hin) as (i & Hi & Hx).
  rewrite length_skipn in Hi. rewrite nth_skipn in Hx.
  exists (k + i)%nat. split; [lia | exact Hx].
Qed.

Lemma place_descending (pivot : Z) (run : list Z) :
  descending run -> descending (place byTime pivot run).
Proof.
  intro Hd. unfold place.
  destruct (insertionPoint_spec pivot run Hd (List.length run) 0
              (List.length run) ltac:(lia) ltac:(lia)
              ltac:(intros; lia) ltac:(intros; lia))
    as (Hk & Hbefore & Hafter).
  set (k := insertionPoint _ _ _ _ _ _) in *.
  pose proof Hd as Hrun. rewrite <- (firstn_skipn k run) in Hrun.
  apply descending_app in Hrun. destruct Hrun as (H1 & H2 & Hcross).
  apply descending_app. split; [exact H1 |]. split.
  - split; [| exact H2].
    intros y Hy. destruct (In_skipn_nth _ _ pivot _ Hy) as (i & Hi & <-).
    specialize (Hafter i Hi). lia.
  - intros a b Ha [<- | Hb]; [| now apply Hcross].
    destruct (In_firstn_nth _ _ pivot _ Ha) as (i & Hi & _ & <-).
    now apply Hbefore.
Qed.

Lemma binaryInsertionSort_descending (pending : list Z) :
  forall run,
    descending run -> descending (binaryInsertionSort byTime run pending).
Proof.
  induction pending as [| p pending IH]; intros run Hd; cbn; [exact Hd |].
  apply IH. now apply place_descending.
Qed.

(** A run that does not descend for the comparator: times that do not
    grow. *)
Lemma countRun_not_descending (rest : list Z) :
  forall previous,
    descending (previous :: firstn (countRun byTime false previous rest) rest).
Proof.
  induction rest as [| current rest IH]; intro previous;
    cbn [countRun firstn].
  - split; [intros ? [] | exact I].
  - unfold Compare, byTime.
    destruct (Z.ltb_spec (previous - current) 0) as [Hbreak | Hgo];
      cbn [firstn].
    + split; [intros ? [] | exact I].
    + specialize (IH current). split; [| exact IH].
      intros y Hy. pose proof (descending_le _ _ IH y Hy). lia.
Qed.

(** A run that descends strictly for the comparator: times that grow; the
    engine reverses it. *)
Lemma countRun_descending (rest : list Z) :
  forall previous,
    descending (rev (previous
                       :: firstn (countRun byTime true previous rest) rest)) /\
    (forall y,
        In y (firstn (countRun byTime true previous rest) rest) ->
        previous < y).
Proof.
  induction rest as [| current rest IH]; intro previous;
    cbn [countRun firstn].
  - split; [cbn; split; [intros ? [] | exact I] | intros ? []].
  - unfold Compare, byTime.
    destruct (Z.leb_spec 0 (previous - current)) as [Hbreak | Hgo];
      cbn [firstn].
    + split; [cbn; split; [intros ? [] | exact I] | intros ? []].
    + destruct (IH current) as [Hrev Hlater].
      set (run := firstn _ rest) in *.
      assert (Hall : forall y, In y (current :: run) -> previous < y).
      { intros y [<- | Hy]; [lia |]. specialize (Hlater y Hy). lia. }
      split; [| exact Hall].
      change (rev (previous :: current :: run))
        with (rev (current :: run) ++ [previous]).
      apply descending_app. split; [exact Hrev |]. split.
      * split; [intros ? [] | exact I].
      * intros a b Ha [<- | []]. apply in_rev in Ha.
        specialize (Hall a Ha). lia.
Qed.

Lemma shortArraySort_descending (ts : list Z) :
  descending (shortArraySort byTime ts).
Proof.
  destruct ts as [| high [| low rest]].
  - exact I.
  - split; [intros ? [] | exact I].
  - unfold shortArraySort. apply binaryInsertionSort_descending.
    cbn [firstn]. change (Compare byTime low high) with (high - low).
    destruct (Z.ltb_spec (high - low) 0) as [Hup | Hdown].
    + destruct (countRun_descending rest low) as [Hrev Hlater].
      set (run := firstn _ rest) in *.
      change (rev (high :: low :: run)) with (rev (low :: run) ++ [high]).
      apply descending_app. split; [exact Hrev |]. split.
      * split; [intros ? [] | exact I].
      * intros a b Ha [<- | []]. apply in_rev in Ha.
        destruct Ha as [<- | Ha]; [lia |]. specialize (Hlater a Ha). lia.
    + pose proof (countRun_not_descending rest low) as Hrun.
      split; [| exact Hrun].
      intros y Hy. pose proof (descending_le _ _ Hrun y Hy). lia.
Qed.

(** V8's sort does what ECMAScript asks when every date is valid, and
    keeps the elements of the array in any case. *)
Lemma shortArraySort_sorts_dates : SortsDates (@shortArraySort JSDate).
Proof.
  intro ts. exists (shortArraySort byTime ts).
  split; [| split].
  - apply (shortArraySort_map DateAt byTime comparator). reflexivity.
  - apply shortArraySort_permutation.
  - apply shortArraySort_descending.
Qed.


Lemma eveningOf_conforming (day : Z) : Conforming (eveningOf day).
Proof.
  split; [apply fixedZone_orderly | apply shortArraySort_sorts_dates].
Qed.

Lemma newYorkAt_conforming (t : Z) : Conforming (newYorkAt t).
Proof.
  split; [apply easternTime2026_orderly | apply shortArraySort_sorts_dates].
Qed.

Lemma newYorkAfterMidnight_conforming (day : Z) :
  Conforming (newYorkAfterMidnight day).
Proof. apply newYorkAt_conforming. Qed.

End SortedOnTimes.

(** ** The streak loop *)

Section StreakProperties.

Import Calendar Stats Spec.
Local Open Scope Z_scope.

Variable z : Zone.
Hypothesis Hzone : Orderly z.

(** On dates that parse, the loop only looks at calendar days. *)
Lemma streakLoop_days (ts : list Z) :
  forall c s,
    streakLoop z (map DateAt ts) (DateAt c) s
    = dayLoop (map (dayIn z) ts) (dayIn z c) s.
Proof.
  induction ts as [| t ts IH]; intros c s; cbn [map streakLoop dayLoop];
    [reflexivity |].
  cbn [sameCalendarDay before previousDay].
  destruct (Z.eqb_spec (dayIn z t) (dayIn z c)) as [He | Hne].
  - rewrite IH, (dayIn_previous z Hzone). reflexivity.
  - rewrite (before_other_day z Hzone t c Hne).
    destruct (dayIn z t <? dayIn z c); [reflexivity | apply IH].
Qed.

(** On days sorted most recent first, the loop counts the run of
    consecutive days that ends at the cursor. *)
Lemma dayLoop_run (ds : list Z) :
  descending ds ->
  forall T s,
    exists n,
      dayLoop ds T s = s + n /\ consecutiveRun (fun d => In d ds) T n.
Proof.
  induction ds as [| d ds IH]; intros Hd T s.
  - exists 0. cbn. split; [lia |].
    split; [lia |]. split; [intros; lia | intros []].
  - destruct Hd as [Hle Hd]. cbn [dayLoop].
    destruct (Z.eqb_spec d T) as [-> | Hne].
    + destruct (IH Hd (T - 1) (s + 1)) as (n & Hn & Hpos & Hin & Hout).
      exists (n + 1). split; [lia |].
      split; [lia |]. split.
      * intros i Hi. destruct (Z.eq_dec i 0) as [-> | Hi0].
        -- left. lia.
        -- right. replace (T - i) with (T - 1 - (i - 1)) by ring.
           apply Hin. lia.
      * intros [Heq | Hin']; [lia |].
        apply Hout. replace (T - 1 - n) with (T - (n + 1)) by ring.
        exact Hin'.
    + destruct (Z.ltb_spec d T) as [Hlt | Hge].
      * exists 0. split; [lia |].
        split; [lia |]. split; [intros; lia |].
        rewrite Z.sub_0_r. intros [Heq | Hin]; [lia |].
        specialize (Hle T Hin). lia.
      * destruct (IH Hd T s) as (n & Hn & Hpos & Hin & Hout).
        exists n. split; [exact Hn |].
        split; [exact Hpos |]. split.
        -- intros i Hi. right. now apply Hin.
        -- intros [Heq | Hin']; [lia | now apply Hout].
Qed.

(** Two day sets with the same members have the same run. *)
Lemma consecutiveRun_unique (P R : Z -> Prop) (T n m : Z) :
  (forall d, P d <-> R d) ->
  consecutiveRun P T n -> consecutiveRun R T m -> n = m.
Proof.
  intros Heq (Hn & Hin & Hout) (Hm & Hin' & Hout').
  destruct (Z.lt_trichotomy n m) as [Hlt | [He | Hgt]]; [| exact He |].
  - exfalso. apply Hout, Heq, Hin'. lia.
  - exfalso. apply Hout', Heq, Hin. lia.
Qed.


End StreakProperties.

Section StreakOfJournal.

Import Calendar Stats Spec.
Local Open Scope Z_scope.


Lemma SortsDates_nil sort : SortsDates sort -> sort comparator [] = [].
Proof.
  intro Hs. destruct (Hs []) as (ts' & Heq & Hperm & _).
  apply Permutation_nil in Hperm. subst ts'. exact Heq.
Qed.


Lemma streak_unfold (w : World) (journals : list JournalEntry) :
  Array_sort w comparator [] = [] ->
  streak w journals = streakLoop (zone w) (dates w journals) (Date_now w) 0.
Proof.
  intro Hnil. unfold streak. destruct journals; [| reflexivity].
  cbn. unfold dates. cbn [map]. now rewrite Hnil.
Qed.

Lemma parsed_times (journals : list JournalEntry) :
  Forall parsed journals ->
  exists ts, map dateOnly journals = map DateAt ts.
Proof.
  induction 1 as [| j journals [t Ht] _ (ts & Hts)].
  - now exists [].
  - exists (t :: ts). cbn. now rewrite Ht, Hts.
Qed.

Lemma hasEntry_times (z : Zone) (journals : list JournalEntry) (ts : list Z) :
  map dateOnly journals = map DateAt ts ->
  forall day, hasEntry z journals day <-> In day (map (dayIn z) ts).
Proof.
  intros Hmap day. unfold hasEntry, onDay. split.
  - intros (j & Hj & t & Ht & <-).
    apply in_map. apply (in_map dateOnly) in Hj.
    rewrite Hmap, Ht in Hj. apply in_map_iff in Hj.
    destruct Hj as (u & Hu & Hin). now injection Hu as ->.
  - intro Hin. apply in_map_iff in Hin. destruct Hin as (t & <- & Ht).
    apply (in_map DateAt) in Ht. rewrite <- Hmap in Ht.
    apply in_map_iff in Ht. destruct Ht as (j & Hj & Hin).
    exists j. split; [exact Hin | now exists t].
Qed.

(** The streak of a journal whose dates all parse is the run of
    consecutive days with an entry that ends today. *)
Lemma streak_run (w : World) (journals : list JournalEntry) :
  Conforming w ->
  Forall parsed journals ->
  consecutiveRun (hasEntry (zone w) journals) (today w) (streak w journals).
Proof.
  intros [Hzone Hsort] Hp. destruct (parsed_times journals Hp) as (ts & Hts).
  rewrite (streak_unfold w journals (SortsDates_nil _ Hsort)).
  unfold dates, Date_now. rewrite Hts.
  destruct (Hsort ts) as (ts' & -> & Hperm & Hd).
  rewrite (streakLoop_days (zone w) Hzone).
  destruct (dayLoop_run _ (descending_days (zone w) Hzone ts' Hd)
              (dayIn (zone w) (clock w)) 0)
    as (n & -> & Hn & Hin & Hout).
  assert (Hmem : forall day,
             hasEntry (zone w) journals day
             <-> In day (map (dayIn (zone w)) ts')).
  { intro day. rewrite (hasEntry_times _ journals ts Hts).
    split; apply Permutation_in; apply Permutation_map;
      [exact Hperm | exact (Permutation_sym Hperm)]. }
  unfold today. rewrite Z.add_0_l.
  split; [exact Hn |]. split.
  - intros i Hi. apply Hmem. now apply Hin.
  - intro H. apply Hout. now apply Hmem.
Qed.


End StreakOfJournal.

Section StreakClaims.

Import Calendar Stats Spec.
Local Open Scope Z_scope.

(** The streak depends on the journal only through the set of days that
    hold an entry, and on the clock only through the day it reads. *)
Lemma streak_same_days (w1 w2 : World) (js1 js2 : list JournalEntry) :
  Conforming w1 -> Conforming w2 ->
  Forall parsed js1 -> Forall parsed js2 ->
  (forall day, hasEntry (zone w1) js1 day <-> hasEntry (zone w2) js2 day) ->
  today w1 = today w2 ->
  streak w1 js1 = streak w2 js2.
Proof.
  intros C1 C2 H1 H2 Hdays Htoday.
  pose proof (streak_run w1 js1 C1 H1) as R1.
  pose proof (streak_run w2 js2 C2 H2) as R2.
  rewrite Htoday in R1.
  exact (consecutiveRun_unique _ _ _ _ _ Hdays R1 R2).
Qed.

(** The streak of a journal, given the days that hold an entry as a
    list. *)
Lemma streak_of_days (w : World) (journals : list JournalEntry)
  (days : list Z) (n : Z) :
  Conforming w -> Forall parsed journals ->
  (forall day, hasEntry (zone w) journals day <-> In day days) ->
  consecutiveRun (fun d => In d days) (today w) n ->
  streak w journals = n.
Proof.
  intros Hw Hp Hdays Hrun.
  exact (consecutiveRun_unique _ _ _ _ _ Hdays (streak_run w journals Hw Hp)
           Hrun).
Qed.

Lemma hasEntry_app (z : Zone) (l1 l2 : list JournalEntry) (day : Z) :
  hasEntry z (l1 ++ l2) day <-> hasEntry z l1 day \/ hasEntry z l2 day.
Proof.
  unfold hasEntry. split.
  - intros (j & Hj & Hd). apply in_app_or in Hj.
    destruct Hj; [left | right]; eauto.
  - intros [(j & Hj & Hd) | (j & Hj & Hd)]; exists j; split; auto;
      apply in_or_app; auto.
Qed.

Lemma hasEntry_cons (z : Zone) (j : JournalEntry) (l : list JournalEntry)
  (day : Z) :
  hasEntry z (j :: l) day <-> onDay z j day \/ hasEntry z l day.
Proof.
  unfold hasEntry. split.
  - intros (k & [<- | Hk] & Hd); [now left | right; eauto].
  - intros [Hd | (k & Hk & Hd)]; [exists j | exists k]; split; auto;
      [now left | now right].
Qed.

Lemma onDay_unique (z : Zone) (j : JournalEntry) (d1 d2 : Z) :
  onDay z j d1 -> onDay z j d2 -> d1 = d2.
Proof.
  intros (t & Ht & <-) (u & Hu & <-). rewrite Ht in Hu. now injection Hu as ->.
Qed.

Lemma undated_onDay (z : Zone) (m : string) (day : Z) :
  ~ onDay z (undated m) day.
Proof. intros (t & Ht & _). discriminate. Qed.

Lemma entryOn_parsed (tza : Z) (m : string) (day : Z) :
  parsed (entryOn tza m day).
Proof. eexists. reflexivity. Qed.

Lemma entryOn_onDay (tza : Z) (m : string) (day : Z) :
  onDay (fixedZone tza) (entryOn tza m day) day.
Proof.
  eexists. split; [reflexivity | apply localDay_midnight].
Qed.

Lemma entryAt_parsed (z : Zone) (m : string) (day : Z) :
  parsed (entryAt z m day).
Proof. eexists. reflexivity. Qed.

Lemma entryAt_onDay (z : Zone) (m : string) (day : Z) :
  Orderly z -> onDay z (entryAt z m day) day.
Proof.
  intros [_ Hz]. eexists. split; [reflexivity |].
  rewrite Hz. unfold Day. apply Z.div_mul. unfold msPerDay; lia.
Qed.

End StreakClaims.

Import Stats Spec.

(** C2 as stated fails on a set of entries one of whose dates does not
    parse: the comparator of the sort returns NaN on it, the engine leaves
    the array as it stands, and the loop stops at the entry of day 9 before
    it has seen the entry of day 10.  Today holds an entry and the streak
    is 0. *)
Lemma streak_zero_with_an_entry_today :
  today (eveningOf 10) = 10 /\
  hasEntry (zone (eveningOf 10))
           [entryOn 19800000 "😊" 9; undated "😊"; entryOn 19800000 "😊" 10]
           10 /\
  streak (eveningOf 10)
         [entryOn 19800000 "😊" 9; undated "😊"; entryOn 19800000 "😊" 10]
  = 0.
Proof.
  split; [vm_compute; reflexivity |].
  split; [| vm_compute; reflexivity].
  exists (entryOn 19800000 "😊" 10).
  split; [right; right; now left | apply entryOn_onDay].
Qed.

(** C2 (as amended): for every set of entries whose dates all parse, on a
    server whose zone is orderly and whose engine sorts valid dates as
    ECMAScript asks, the streak is the number of consecutive calendar days
    ending at today (the day of the server's clock in the server's zone)
    that hold at least one entry each, stopped by the first day that holds
    none; with no entry on today it is 0.  With entries on days 10, 9, 8
    and 6 and today day 10 it is 3; with entries on days 9, 8 and 7 it is
    0; with no entries it is 0. *)
Theorem streak_counts_consecutive_days :
  (forall (w : World) (journals : list JournalEntry),
      Conforming w ->
      Forall parsed journals ->
      consecutiveRun (hasEntry (zone w) journals) (today w)
                     (streak w journals) /\
      (~ hasEntry (zone w) journals (today w) -> streak w journals = 0)) /\
  (forall (w : World) (journals : list JournalEntry),
      Conforming w ->
      Forall parsed journals ->
      today w = 10 ->
      ((forall day, hasEntry (zone w) journals day <-> In day [10; 9; 8; 6]) ->
       streak w journals = 3) /\
      ((forall day, hasEntry (zone w) journals day <-> In day [9; 8; 7]) ->
       streak w journals = 0)) /\
  (forall w, streak w [] = 0) /\
  today (eveningOf 10) = 10 /\
  streak (eveningOf 10) (map (entryOn 19800000 "😊") [10; 9; 8; 6]) = 3 /\
  streak (eveningOf 10) (map (entryOn 19800000 "😊") [9; 8; 7]) = 0.
Proof.
  split; [| split; [| repeat split; vm_compute; reflexivity]].
  - intros w journals Hw Hp.
    pose proof (streak_run w journals Hw Hp) as Hrun.
    split; [exact Hrun |].
    intro Hnone. destruct Hrun as (Hn & Hin & _).
    destruct (Z.eq_dec (streak w journals) 0) as [H0 | Hne]; [exact H0 |].
    exfalso. apply Hnone.
    rewrite <- (Z.sub_0_r (today w)). apply Hin. lia.
  - intros w journals Hw Hp Htoday. split; intro Hdays.
    + apply (streak_of_days w journals [10; 9; 8; 6] 3 Hw Hp Hdays).
      rewrite Htoday. split; [lia |]. split.
      * intros i Hi.
        assert (Hi' : i = 0 \/ i = 1 \/ i = 2) by lia.
        destruct Hi' as [-> | [-> | ->]]; cbn; tauto.
      * cbn. lia.
    + apply (streak_of_days w journals [9; 8; 7] 0 Hw Hp Hdays).
      rewrite Htoday. split; [lia |]. split; [intros; lia | cbn; lia].
Qed.

Lemma streak_counts_consecutive_days_witness :
  consecutiveRun
    (hasEntry (zone (eveningOf 10))
              (map (entryOn 19800000 "😔") [6; 10; 8; 9; 10]))
    (today (eveningOf 10))
    (streak (eveningOf 10) (map (entryOn 19800000 "😔") [6; 10; 8; 9; 10])).
Proof.
  apply (proj1 (proj1 streak_counts_consecutive_days (eveningOf 10)
                  (map (entryOn 19800000 "😔") [6; 10; 8; 9; 10])
                  (eveningOf_conforming 10)
                  ltac:(repeat constructor; apply entryOn_parsed))).
Defined.

(** C5 as stated fails on an entry set one of whose dates does not parse:
    a second entry on day 10, which already holds one, turns the streak
    from 0 into 2. *)
Lemma second_entry_changes_the_streak :
  hasEntry (zone (eveningOf 10))
           [entryOn 19800000 "😊" 9; undated "😊"; entryOn 19800000 "😊" 10]
           10 /\
  onDay (zone (eveningOf 10)) (entryOn 19800000 "😴" 10) 10 /\
  streak (eveningOf 10)
         [entryOn 19800000 "😊" 9; undated "😊"; entryOn 19800000 "😊" 10]
  = 0 /\
  streak (eveningOf 10)
         (entryOn 19800000 "😴" 10
            :: [entryOn 19800000 "😊" 9; undated "😊";
                entryOn 19800000 "😊" 10])
  = 2.
Proof.
  split; [| split; [apply entryOn_onDay | split; vm_compute; reflexivity]].
  exists (entryOn 19800000 "😊" 10).
  split; [right; right; now left | apply entryOn_onDay].
Qed.

(** C5 (as amended): for every entry set whose dates all parse, on a
    server whose zone is orderly and whose engine sorts valid dates as
    ECMAScript asks, an entry on a day that already holds one leaves the
    streak as it was, wherever it is added; two entries that both lie on
    today give the streak 1, not 2. *)
Theorem streak_counts_a_day_once :
  (forall (w : World) (pre post : list JournalEntry) (j : JournalEntry),
      Conforming w ->
      Forall parsed (pre ++ j :: post) ->
      (exists day, onDay (zone w) j day /\
                   hasEntry (zone w) (pre ++ post) day) ->
      streak w (pre ++ j :: post) = streak w (pre ++ post)) /\
  (forall (w : World) (j j' : JournalEntry),
      Conforming w ->
      onDay (zone w) j (today w) ->
      onDay (zone w) j' (today w) ->
      streak w [j; j'] = 1).
Proof.
  split.
  - intros w pre post j Hw Hp (day & Hj & Hdup).
    apply streak_same_days; [exact Hw | exact Hw | exact Hp | | | reflexivity].
    + apply Forall_app in Hp. destruct Hp as [Hpre Hpost].
      apply Forall_app. split; [exact Hpre | now inversion Hpost].
    + intro d. rewrite !hasEntry_app, hasEntry_cons. split.
      * intros [H | [H | H]]; auto.
        apply hasEntry_app. now rewrite (onDay_unique _ _ _ _ H Hj).
      * intros [H | H]; auto.
  - intros w j j' Hw Hj Hj'.
    assert (Hp : Forall parsed [j; j']).
    { destruct Hj as (t & Ht & _), Hj' as (t' & Ht' & _).
      repeat constructor; eexists; eassumption. }
    pose proof (streak_run w [j; j'] Hw Hp) as Hrun.
    assert (Hone : consecutiveRun (hasEntry (zone w) [j; j']) (today w) 1).
    { split; [lia |]. split.
      - intros i Hi. replace i with 0 by lia. rewrite Z.sub_0_r.
        apply hasEntry_cons. now left.
      - intro H. apply hasEntry_cons in H. destruct H as [H | H].
        + pose proof (onDay_unique _ _ _ _ Hj H). lia.
        + apply hasEntry_cons in H. destruct H as [H | (k & [] & _)].
          pose proof (onDay_unique _ _ _ _ Hj' H). lia. }
    exact (consecutiveRun_unique _ _ _ _ _ (fun d => iff_refl _) Hrun Hone).
Qed.

Lemma streak_counts_a_day_once_witness :
  streak (eveningOf 10)
         ([entryOn 19800000 "😊" 10] ++ entryOn 19800000 "😴" 10
            :: [entryOn 19800000 "😊" 9])
  = streak (eveningOf 10)
           ([entryOn 19800000 "😊" 10] ++ [entryOn 19800000 "😊" 9]).
Proof.
  refine (proj1 streak_counts_a_day_once (eveningOf 10)
            [entryOn 19800000 "😊" 10] [entryOn 19800000 "😊" 9]
            (entryOn 19800000 "😴" 10) (eveningOf_conforming 10) _ _).
  - repeat constructor; apply entryOn_parsed.
  - exists 10. split; [apply entryOn_onDay |].
    exists (entryOn 19800000 "😊" 10). split; [now left |].
    apply entryOn_onDay.
Defined.

(** C8 as stated fails: the handler takes no reference day, it reads the
    wall clock, and the same journal gives another streak a day later.
    Nor is the streak a function of the day set: at one clock reading, an
    entry whose date does not parse, which adds no day, turns the streak
    from 2 into 0. *)
Lemma streak_reads_the_clock :
  streak (eveningOf 10) [entryOn 19800000 "😊" 10]
  <> streak (eveningOf 11) [entryOn 19800000 "😊" 10] /\
  (forall day,
      hasEntry (zone (eveningOf 10))
               [entryOn 19800000 "😊" 9; entryOn 19800000 "😊" 10] day
      <-> hasEntry (zone (eveningOf 10))
                   [entryOn 19800000 "😊" 9; undated "😊";
                    entryOn 19800000 "😊" 10] day) /\
  streak (eveningOf 10) [entryOn 19800000 "😊" 9; entryOn 19800000 "😊" 10]
  <> streak (eveningOf 10)
            [entryOn 19800000 "😊" 9; undated "😊"; entryOn 19800000 "😊" 10].
Proof.
  split; [vm_compute; discriminate |].
  split; [| vm_compute; discriminate].
  intro day. rewrite !hasEntry_cons. split.
  - intros [H | [H | H]]; auto.
  - intros [H | [H | [H | H]]]; auto.
    destruct (undated_onDay _ _ _ H).
Qed.

(** C8 (as amended): for entries whose dates all parse, on servers whose
    zones are orderly and whose engines sort valid dates as ECMAScript
    asks, the streak is a function of the set of days that hold an entry
    and of the calendar day the wall clock shows when the handler reads
    it: two invocations over journals with the same day set, at clock
    readings on the same day, return the same streak; and the clock does
    matter, a journal whose streak is running gives 0 once the clock shows
    the next day and no entry lies on it. *)
Theorem streak_determined_by_days_and_clock_day :
  forall (w1 w2 : World) (js1 js2 : list JournalEntry),
    Conforming w1 -> Conforming w2 ->
    Forall parsed js1 -> Forall parsed js2 ->
    (forall day, hasEntry (zone w1) js1 day <-> hasEntry (zone w2) js2 day) ->
    (today w1 = today w2 -> streak w1 js1 = streak w2 js2) /\
    (today w2 = today w1 + 1 ->
     hasEntry (zone w1) js1 (today w1) ->
     ~ hasEntry (zone w1) js1 (today w1 + 1) ->
     1 <= streak w1 js1 /\ streak w2 js2 = 0).
Proof.
  intros w1 w2 js1 js2 C1 C2 H1 H2 Hdays. split.
  - intro Ht. now apply streak_same_days.
  - intros Hnext Hin Hout.
    pose proof (streak_run w1 js1 C1 H1) as (Hn & _ & Hgap).
    pose proof (streak_run w2 js2 C2 H2) as (Hm & Hrun & _).
    split.
    + destruct (Z.eq_dec (streak w1 js1) 0) as [H0 | Hne]; [| lia].
      exfalso. apply Hgap. rewrite H0, Z.sub_0_r. exact Hin.
    + destruct (Z.eq_dec (streak w2 js2) 0) as [H0 | Hne]; [exact H0 |].
      exfalso. apply Hout. apply Hdays.
      rewrite <- Hnext, <- (Z.sub_0_r (today w2)). apply Hrun. lia.
Qed.

Lemma streak_determined_by_days_and_clock_day_witness :
  streak (eveningOf 20600)
         [entryOn 19800000 "😊" 20600; entryOn 19800000 "😡" 20599]
  = streak (newYorkAfterMidnight 20600)
           [entryAt easternTime2026 "😔" 20599;
            entryAt easternTime2026 "😔" 20600;
            entryAt easternTime2026 "😱" 20599].
Proof.
  refine (proj1 (streak_determined_by_days_and_clock_day
                   (eveningOf 20600) (newYorkAfterMidnight 20600)
                   [entryOn 19800000 "😊" 20600; entryOn 19800000 "😡" 20599]
                   [entryAt easternTime2026 "😔" 20599;
                    entryAt easternTime2026 "😔" 20600;
                    entryAt easternTime2026 "😱" 20599]
                   (eveningOf_conforming 20600)
                   (newYorkAfterMidnight_conforming 20600) _ _ _) _).
  - repeat constructor; apply entryOn_parsed.
  - repeat constructor; apply entryAt_parsed.
  - intro day. cbn [zone eveningOf newYorkAfterMidnight].
    rewrite !hasEntry_cons. split.
    + intros [H | [H | (k & [] & _)]].
      * rewrite <- (onDay_unique _ _ _ _ (entryOn_onDay _ _ _) H).
        right; left. apply entryAt_onDay, easternTime2026_orderly.
      * rewrite <- (onDay_unique _ _ _ _ (entryOn_onDay _ _ _) H).
        left. apply entryAt_onDay, easternTime2026_orderly.
    + intros [H | [H | [H | (k & [] & _)]]];
        rewrite <- (onDay_unique _ _ _ _
                      (entryAt_onDay _ _ _ easternTime2026_orderly) H).
      * right; left. apply entryOn_onDay.
      * left. apply entryOn_onDay.
      * right; left. apply entryOn_onDay.
  - vm_compute. reflexivity.
Defined.

(** ** binary64 division and toFixed *)

Section NumberProperties.

Import Number.
Local Open Scope Z_scope.

Lemma roundHalfEven_error (num den : Z) :
  0 < den -> 0 <= num ->
  - den <= 2 * (roundHalfEven num den * den - num) <= den.
Proof.
  intros Hden Hnum. unfold roundHalfEven.
  pose proof (Z.div_mod num den ltac:(lia)) as Hdm.
  pose proof (Z.mod_pos_bound num den Hden) as Hr.
  destruct (Z.compare_spec (2 * (num mod den)) den) as [He | Hl | Hg].
  - destruct (Z.even (num / den)); nia.
  - nia.
  - nia.
Qed.

Lemma scaled_positive (p d e : Z) :
  0 < p -> 0 < d -> 0 < scaledNum p e /\ 0 < scaledDen d e.
Proof.
  intros Hp Hd. unfold scaledNum, scaledDen.
  pose proof (Z.pow_pos_nonneg 2 (Z.max 0 (- e)) ltac:(lia) ltac:(lia)).
  pose proof (Z.pow_pos_nonneg 2 (Z.max 0 e) ltac:(lia) ltac:(lia)).
  nia.
Qed.

Lemma scaled_initial_exponent (p d : Z) :
  0 < p -> 0 < d ->
  let e0 := Z.log2 p - Z.log2 d - 53 in
  scaledDen d e0 * 2 ^ 52 <= scaledNum p e0.
Proof.
  intros Hp Hd e0.
  destruct (Z.log2_spec p Hp) as [Hpl _].
  destruct (Z.log2_spec d Hd) as [_ Hdu].
  pose proof (Z.log2_nonneg p) as Hlp.
  pose proof (Z.log2_nonneg d) as Hld.
  unfold scaledNum, scaledDen.
  destruct (Z_le_gt_dec 0 e0) as [He | He].
  - rewrite (Z.max_r 0 e0), (Z.max_l 0 (- e0)) by lia.
    rewrite Z.pow_0_r, Z.mul_1_r.
    assert (Hpow : 2 ^ Z.log2 p = 2 ^ Z.succ (Z.log2 d) * (2 ^ e0 * 2 ^ 52)).
    { rewrite <- !Z.pow_add_r by lia. f_equal. subst e0. lia. }
    pose proof (Z.pow_pos_nonneg 2 e0 ltac:(lia) He).
    pose proof (Z.pow_pos_nonneg 2 52 ltac:(lia) ltac:(lia)).
    nia.
  - rewrite (Z.max_l 0 e0), (Z.max_r 0 (- e0)) by lia.
    rewrite Z.pow_0_r, Z.mul_1_r.
    assert (Hpow : 2 ^ Z.log2 p * 2 ^ (- e0) = 2 ^ Z.succ (Z.log2 d) * 2 ^ 52).
    { rewrite <- !Z.pow_add_r by lia. f_equal. subst e0. lia. }
    pose proof (Z.pow_pos_nonneg 2 (- e0) ltac:(lia) ltac:(lia)).
    pose proof (Z.pow_pos_nonneg 2 52 ltac:(lia) ltac:(lia)).
    nia.
Qed.

Lemma scaled_lower_bound (p d : Z) :
  0 < p -> 0 < d ->
  scaledDen d (ulpExponent p d) * 2 ^ 52 <= scaledNum p (ulpExponent p d).
Proof.
  intros Hp Hd. unfold ulpExponent.
  set (e0 := Z.log2 p - Z.log2 d - 53).
  destruct (Z.ltb_spec (scaledNum p e0) (scaledDen d e0 * 2 ^ 53)) as [_ | Hbig].
  - exact (scaled_initial_exponent p d Hp Hd).
  - unfold scaledNum, scaledDen in *.
    change (2 ^ 53) with (2 * 2 ^ 52) in Hbig.
    destruct (Z_le_gt_dec 0 e0) as [He | He].
    + rewrite (Z.max_r 0 (e0 + 1)), (Z.max_l 0 (- (e0 + 1))) by lia.
      rewrite (Z.max_r 0 e0), (Z.max_l 0 (- e0)) in Hbig by lia.
      rewrite Z.pow_add_r, Z.pow_1_r by lia. lia.
    + rewrite (Z.max_l 0 (e0 + 1)), (Z.max_r 0 (- (e0 + 1))) by lia.
      rewrite (Z.max_l 0 e0), (Z.max_r 0 (- e0)) in Hbig by lia.
      replace (- e0) with (- (e0 + 1) + 1) in Hbig by ring.
      rewrite Z.pow_add_r, Z.pow_1_r in Hbig by lia. lia.
Qed.


Lemma Qfloor_fraction (x : Q) (a : Z) (b : positive) :
  (x == a # b)%Q -> Qfloor x = a / Zpos b.
Proof. intro H. rewrite H. reflexivity. Qed.

Lemma tenths_scaled (m e : Z) :
  tenths (inject_Z m * pow2 e)
  = (20 * m * 2 ^ Z.max 0 e + 2 ^ Z.max 0 (- e)) / (2 * 2 ^ Z.max 0 (- e)).
Proof.
  unfold tenths, pow2.
  destruct (Z.leb_spec 0 e) as [He | He].
  - rewrite (Z.max_r 0 e), (Z.max_l 0 (- e)) by lia.
    rewrite Z.pow_0_r.
    apply (Qfloor_fraction _ (20 * m * 2 ^ e + 1) 2).
    unfold Qeq, Qplus, Qmult, inject_Z. cbn [Qnum Qden].
    rewrite ?Pos2Z.inj_mul. ring.
  - rewrite (Z.max_l 0 e), (Z.max_r 0 (- e)) by lia.
    rewrite Z.pow_0_r.
    pose proof (Z.pow_pos_nonneg 2 (- e) ltac:(lia) ltac:(lia)) as Hpos.
    set (P := Z.to_pos (2 ^ (- e))).
    rewrite <- (Z2Pos.id (2 ^ (- e)) Hpos). fold P.
    change (2 * Z.pos P) with (Z.pos (2 * P)).
    apply Qfloor_fraction.
    unfold Qeq, Qplus, Qmult, inject_Z. cbn [Qnum Qden].
    rewrite ?Pos2Z.inj_mul. ring.
Qed.

(** The integer [toFixed(1)] picks for the quotient of two integers is a
    nearest tenth of the exact quotient. *)
Lemma tenths_divide_nearest (t L : Z) :
  0 < L -> 0 <= t -> 20 * t < 2 ^ 53 ->
  - L <= 2 * tenths (divide t L) * L - 20 * t <= L.
Proof.
  intros HL Ht Hsmall. unfold divide, roundToDouble. cbn [Qnum Qden].
  destruct t as [| p | p]; [| | lia].
  - change (tenths 0) with 0. lia.
  - rewrite (Z2Pos.id L HL), tenths_scaled.
    unfold significand.
    set (e := ulpExponent (Z.pos p) L).
    pose proof (scaled_lower_bound (Z.pos p) L ltac:(lia) HL) as Hlow.
    fold e in Hlow.
    destruct (scaled_positive (Z.pos p) L e ltac:(lia) HL) as [HN HD].
    pose proof (roundHalfEven_error (scaledNum (Z.pos p) e) (scaledDen L e)
                  HD ltac:(lia)) as Herr.
    set (m := roundHalfEven (scaledNum (Z.pos p) e) (scaledDen L e)) in *.
    unfold scaledNum, scaledDen in *.
    set (A := 2 ^ Z.max 0 (- e)) in *.
    set (B := 2 ^ Z.max 0 e) in *.
    assert (HA : 0 < A) by (apply Z.pow_pos_nonneg; lia).
    assert (HB : 0 < B) by (apply Z.pow_pos_nonneg; lia).
    set (X := 20 * m * B + A).
    pose proof (Z.mul_div_le X (2 * A) ltac:(lia)) as Hfl.
    pose proof (Z.mul_succ_div_gt X (2 * A) ltac:(lia)) as Hfu.
    set (n := X / (2 * A)) in *.
    change (2 ^ 52) with 4503599627370496 in Hlow.
    change (2 ^ 53) with 9007199254740992 in Hsmall.
    assert (Hgap : 10 * (L * B) < A) by nia.
    subst X. split; nia.
Qed.

End NumberProperties.

(** ** The average mood *)

Section AverageMoodProperties.

Import JS Number Stats Spec.
Local Open Scope Z_scope.

Lemma roundHalfEven_nonneg (num den : Z) :
  0 < den -> 0 <= num -> 0 <= roundHalfEven num den.
Proof.
  intros Hden Hnum. unfold roundHalfEven.
  pose proof (Z.div_pos num den Hnum Hden).
  destruct (2 * (num mod den) ?= den); [destruct (Z.even _) | |]; lia.
Qed.

Lemma toFixed1_divide (t L : Z) :
  0 < L -> 0 <= t -> toFixed1 (divide t L) = fixed1 (tenths (divide t L)).
Proof.
  intros HL Ht. unfold toFixed1.
  assert (H : 0 <= Qnum (divide t L));
    [| destruct (Qnum (divide t L)); [reflexivity | reflexivity | lia]].
  unfold divide, roundToDouble. cbn [Qnum Qden].
  destruct t as [| p | p]; [cbn; lia | | lia].
  rewrite (Z2Pos.id L HL). unfold significand.
  set (e := ulpExponent (Z.pos p) L).
  destruct (scaled_positive (Z.pos p) L e ltac:(lia) HL) as [HN HD].
  pose proof (roundHalfEven_nonneg _ _ HD (Z.lt_le_incl _ _ HN)) as Hm.
  unfold Qmult, inject_Z, pow2. cbn [Qnum Qden].
  destruct (0 <=? e); cbn [Qnum inject_Z].
  - pose proof (Z.pow_nonneg 2 e ltac:(lia)). nia.
  - lia.
Qed.

Lemma moodOperand_range (m : string) (n : Z) :
  moodOperand m = Numeric n -> 1 <= n <= 5.
Proof.
  unfold moodOperand, get.
  destruct (ownProperty m moodMap) as [v |] eqn:Hown.
  - cbn in Hown.
    repeat match type of Hown with
           | (if ?b then _ else _) = _ =>
               destruct b;
               [injection Hown as <-; cbn; intro H; injection H as <-; lia |]
           end.
    discriminate.
  - destruct (existsb _ _); intro H; [discriminate | injection H as <-; lia].
Qed.

Lemma totalMood_numeric (journals : list JournalEntry) (scores : list Z) :
  map (fun j => moodOperand (mood j)) journals = map Numeric scores ->
  totalMood journals = Total (fold_right Z.add 0 scores).
Proof.
  unfold totalMood.
  enough (H : forall s,
             map (fun j => moodOperand (mood j)) journals = map Numeric scores ->
             fold_left (fun sum j => add sum (moodOperand (mood j))) journals
                       (Total s)
             = Total (s + fold_right Z.add 0 scores)).
  { intro Hm. now rewrite (H 0 Hm). }
  revert scores.
  induction journals as [| j journals IH]; intros [| v scores] s Hm;
    try discriminate; cbn.
  - f_equal. lia.
  - cbn in Hm. injection Hm as Hj Hrest.
    rewrite Hj. cbn. rewrite (IH scores _ Hrest). f_equal. lia.
Qed.

Lemma scores_sum_bounds (scores : list Z) :
  Forall (fun v => 1 <= v <= 5) scores ->
  Z.of_nat (List.length scores) <= fold_right Z.add 0 scores
  <= 5 * Z.of_nat (List.length scores).
Proof.
  induction 1 as [| v scores Hv _ IH]; cbn [fold_right List.length]; lia.
Qed.

Lemma scores_in_range (journals : list JournalEntry) (scores : list Z) :
  map (fun j => moodOperand (mood j)) journals = map Numeric scores ->
  Forall (fun v => 1 <= v <= 5) scores.
Proof.
  revert scores.
  induction journals as [| j journals IH]; intros [| v scores] Hm;
    try discriminate; constructor.
  - cbn in Hm. injection Hm as Hj _. exact (moodOperand_range _ _ Hj).
  - cbn in Hm. injection Hm as _ Hrest. exact (IH _ Hrest).
Qed.

(** What the handler returns for a journal whose moods all have a number:
    the numeral of a nearest tenth of the mean, here on integers. *)
Lemma averageMood_tenths (journals : list JournalEntry) (scores : list Z) :
  journals <> [] ->
  Z.of_nat (List.length journals) < 2 ^ 32 ->
  map (fun j => moodOperand (mood j)) journals = map Numeric scores ->
  exists n,
    averageMood journals = Str (fixed1 n) /\
    - Z.of_nat (List.length journals)
    <= 2 * n * Z.of_nat (List.length journals)
       - 20 * fold_right Z.add 0 scores
    <= Z.of_nat (List.length journals).
Proof.
  intros Hne Hlen Hm.
  pose proof (scores_in_range _ _ Hm) as Hrange.
  assert (Hsame : List.length scores = List.length journals).
  { apply (f_equal (@List.length _)) in Hm. now rewrite !length_map in Hm. }
  pose proof (scores_sum_bounds scores Hrange) as Hsum.
  rewrite Hsame in Hsum.
  set (L := Z.of_nat (List.length journals)) in *.
  set (t := fold_right Z.add 0 scores) in *.
  assert (HL : 0 < L) by (subst L; destruct journals; [congruence | cbn; lia]).
  change (2 ^ 32) with 4294967296 in Hlen.
  exists (tenths (divide t L)). split.
  - unfold averageMood. fold L.
    destruct (Z.ltb_spec 0 L) as [_ | Hbad]; [| lia].
    rewrite (totalMood_numeric _ _ Hm). fold t.
    now rewrite toFixed1_divide by lia.
  - apply tenths_divide_nearest; [exact HL | lia |].
    change (2 ^ 53) with 9007199254740992. lia.
Qed.





Lemma ownProperty_absent (key : string) (o : list (string * Z)) :
  ~ In key (map fst o) -> ownProperty key o = None.
Proof.
  induction o as [| [k v] o IH]; cbn; [reflexivity |].
  intro Hnot. destruct (String.eqb_spec key k) as [-> | _].
  - exfalso. apply Hnot. now left.
  - apply IH. intro Hin. apply Hnot. now right.
Qed.

Lemma not_inherited (key : string) :
  ~ In key ObjectPrototype -> existsb (String.eqb key) ObjectPrototype = false.
Proof.
  intro Hnot. apply not_true_is_false. intro Hex.
  apply existsb_exists in Hex. destruct Hex as (k & Hk & Heq).
  apply String.eqb_eq in Heq. subst k. exact (Hnot Hk).
Qed.

Lemma emoji_operand (m : string) :
  In m Codec.moods -> moodOperand m = Numeric 3.
Proof.
  intro Hin. cbn in Hin.
  repeat (destruct Hin as [<- | Hin]; [reflexivity |]).
  destruct Hin.
Qed.

Lemma sum_repeat (v : Z) (k : nat) :
  fold_right Z.add 0 (repeat v k) = v * Z.of_nat k.
Proof.
  induction k as [| k IH]; [cbn; lia |].
  cbn [repeat fold_right]. rewrite IH. lia.
Qed.

(** The tenth [toFixed(1)] picks lies within a twentieth of the number,
    the upper end excluded. *)
Lemma tenths_bracket (x : Q) :
  ((tenths x # 10) - (1 # 20) <= x)%Q /\ (x < (tenths x # 10) + (1 # 20))%Q.
Proof.
  unfold tenths.
  pose proof (Qfloor_le (x * 10 + (1 # 2))) as Hlow.
  pose proof (Qlt_floor (x * 10 + (1 # 2))) as Hhigh.
  set (n := Qfloor (x * 10 + (1 # 2))) in *.
  rewrite inject_Z_plus in Hhigh.
  assert (Hn : (n # 10 == inject_Z n * (1 # 10))%Q).
  { unfold Qeq, Qmult, inject_Z. cbn [Qnum Qden]. lia. }
  rewrite Hn. change (inject_Z 1) with 1%Q in Hhigh.
  split; lra.
Qed.

(** The handler's answer for a journal whose moods all have a number: the
    numeral [toFixed(1)] writes for the binary64 quotient. *)
Lemma averageMood_exact (journals : list JournalEntry) (scores : list Z) :
  journals <> [] ->
  map (fun j => moodOperand (mood j)) journals = map Numeric scores ->
  averageMood journals
  = Str (fixed1 (tenths (divide (fold_right Z.add 0 scores)
                                (Z.of_nat (List.length journals))))).
Proof.
  intros Hne Hm.
  pose proof (scores_sum_bounds scores (scores_in_range _ _ Hm)) as Hsum.
  assert (HL : 0 < Z.of_nat (List.length journals))
    by (destruct journals; [congruence | cbn; lia]).
  unfold averageMood.
  destruct (Z.ltb_spec 0 (Z.of_nat (List.length journals))) as [_ | Hbad];
    [| lia].
  rewrite (totalMood_numeric _ _ Hm).
  now rewrite toFixed1_divide by lia.
Qed.

(** The same with the tenth named: it is a tenth nearest to the mean. *)
Lemma averageMood_nearest (journals : list JournalEntry) (scores : list Z) :
  journals <> [] ->
  Z.of_nat (List.length journals) < 2 ^ 32 ->
  map (fun j => moodOperand (mood j)) journals = map Numeric scores ->
  averageMood journals
  = Str (fixed1 (tenths (divide (fold_right Z.add 0 scores)
                                (Z.of_nat (List.length journals))))) /\
  10 <= tenths (divide (fold_right Z.add 0 scores)
                       (Z.of_nat (List.length journals))) <= 50 /\
  (Qabs ((tenths (divide (fold_right Z.add 0%Z scores)
                         (Z.of_nat (List.length journals))) # 10)
         - mean scores) <= 1 # 20)%Q.
Proof.
  intros Hne Hlen Hm.
  split; [exact (averageMood_exact _ _ Hne Hm) |].
  pose proof (scores_sum_bounds scores (scores_in_range _ _ Hm)) as Hsum.
  assert (Hsame : List.length scores = List.length journals).
  { apply (f_equal (@List.length _)) in Hm. now rewrite !length_map in Hm. }
  rewrite Hsame in Hsum.
  unfold mean. rewrite Hsame.
  set (L := Z.of_nat (List.length journals)) in *.
  set (t := fold_right Z.add 0 scores) in *.
  assert (HL : 0 < L) by (subst L; destruct journals; [congruence | cbn; lia]).
  change (2 ^ 32) with 4294967296 in Hlen.
  assert (Hnear : - L <= 2 * tenths (divide t L) * L - 20 * t <= L).
  { apply tenths_divide_nearest; [exact HL | lia |].
    change (2 ^ 53) with 9007199254740992. lia. }
  set (n := tenths (divide t L)) in *.
  split; [nia |].
  apply Qabs_Qle_condition.
  unfold Qle, Qminus, Qplus, Qopp. cbn [Qnum Qden].
  rewrite !Pos2Z.inj_mul, (Z2Pos.id L HL).
  split; nia.
Qed.

(** Off the names objects inherit, the lookup with its default is the
    specification's score. *)
Lemma moodOperand_score (m : string) :
  ~ In m ObjectPrototype -> moodOperand m = Numeric (score m).
Proof.
  intro Hinh. unfold moodOperand, get, score.
  cbn [moodMap ownProperty].
  repeat match goal with
         | |- context [String.eqb m ?k] =>
             destruct (String.eqb m k); [reflexivity |]
         end.
  now rewrite (not_inherited _ Hinh).
Qed.

Lemma operands_scores (journals : list JournalEntry) :
  Forall (fun j => ~ In (mood j) ObjectPrototype) journals ->
  map (fun j => moodOperand (mood j)) journals
  = map Numeric (map (fun j => score (mood j)) journals).
Proof.
  induction 1 as [| j journals Hj _ IH]; [reflexivity |].
  cbn [map]. now rewrite (moodOperand_score _ Hj), IH.
Qed.

End AverageMoodProperties.

Import Number.

(** C4 as stated fails where the mean lies halfway between two tenths:
    seventeen entries of Very Sad and three of Sad have the mean 1.15, which
    rounds to 1.2 both half-up and half-even, and the handler answers
    1.1. *)
Lemma averageMood_tie_rounds_neither_way :
  averageMood (repeat (entryOn 0 "Very Sad" 1) 17
               ++ repeat (entryOn 0 "Sad" 1) 3)
  = JS.Str "1.1" /\
  (mean (repeat 1 17 ++ repeat 2 3)%Z == 115 # 100)%Q /\
  tenths (115 # 100) = 12 /\
  roundHalfEven 115 10 = 12 /\
  fixed1 12 = "1.2"%string.
Proof.
  repeat split; vm_compute; reflexivity.
Qed.

(** C4 (as amended): the average mood of the empty journal is the number
    0.  For every non-empty journal (of fewer than 2^32 entries, as every
    array is) none of whose moods names a property objects inherit, it is
    the text of the numeral, with one decimal, that [toFixed(1)] writes for
    the binary64 quotient of the summed scores by the number of entries,
    the five named labels scoring 1 to 5 and every other label 3: the
    tenth [n/10] with [n/10 - 1/20 <= quotient < n/10 + 1/20].  It is
    always a tenth nearest to the mean; where the mean lies halfway between
    two tenths it is the one on whose side the binary64 quotient falls
    (1.1 for the mean 1.15, 2.3 for the mean 2.25).  A single entry of
    mood Happy gives 4.0, and two entries that score 1 and 5 give 3.0. *)
Theorem averageMood_is_rounded_mean :
  averageMood [] = JS.Num 0 /\
  (forall journals : list JournalEntry,
      journals <> [] ->
      Z.of_nat (List.length journals) < 2 ^ 32 ->
      Forall (fun j => ~ In (mood j) ObjectPrototype) journals ->
      exists n,
        averageMood journals = JS.Str (fixed1 n) /\
        10 <= n <= 50 /\
        ((n # 10) - (1 # 20)
         <= divide (fold_right Z.add 0%Z
                               (map (fun j => score (mood j)) journals))
                   (Z.of_nat (List.length journals)))%Q /\
        (divide (fold_right Z.add 0%Z
                            (map (fun j => score (mood j)) journals))
                (Z.of_nat (List.length journals))
         < (n # 10) + (1 # 20))%Q /\
        (Qabs ((n # 10) - mean (map (fun j => score (mood j)) journals))
         <= 1 # 20)%Q) /\
  map score ["Very Sad"; "Sad"; "Neutral"; "Happy"; "Very Happy"]%string
  = [1; 2; 3; 4; 5] /\
  (forall m, ~ In m (map fst moodMap) -> score m = 3) /\
  (forall d, averageMood [{| mood := "Happy"; dateOnly := d |}]
             = JS.Str "4.0") /\
  (forall d1 d2,
      averageMood [{| mood := "Very Sad"; dateOnly := d1 |};
                   {| mood := "Very Happy"; dateOnly := d2 |}]
      = JS.Str "3.0") /\
  averageMood (repeat (entryOn 0 "Very Sad" 1) 17
               ++ repeat (entryOn 0 "Sad" 1) 3)
  = JS.Str "1.1" /\
  averageMood (repeat (entryOn 0 "Sad" 1) 3 ++ [entryOn 0 "Neutral" 1])
  = JS.Str "2.3".
Proof.
  split; [reflexivity |].
  split; [| split; [reflexivity | split; [| split; [| split; [| split]]]]].
  - intros journals Hne Hlen Hnames.
    pose proof (operands_scores journals Hnames) as Hm.
    destruct (averageMood_nearest _ _ Hne Hlen Hm) as (Hn & Hrange & Hq).
    destruct (tenths_bracket
                (divide (fold_right Z.add 0
                           (map (fun j => score (mood j)) journals))
                        (Z.of_nat (List.length journals))))
      as [Hlow Hhigh].
    eexists. split; [exact Hn |].
    split; [exact Hrange |]. split; [exact Hlow |].
    split; [exact Hhigh | exact Hq].
  - intros m Hown. unfold score.
    repeat match goal with
           | |- context [String.eqb m ?k] =>
               destruct (String.eqb_spec m k) as [-> | _];
               [exfalso; apply Hown; cbn; tauto |]
           end.
    reflexivity.
  - intro d. vm_compute. reflexivity.
  - intros d1 d2. vm_compute. reflexivity.
  - vm_compute. reflexivity.
  - vm_compute. reflexivity.
Qed.

Lemma averageMood_is_rounded_mean_witness :
  exists n,
    averageMood [entryOn 0 "Happy" 1; entryOn 0 "Sad" 2;
                 entryOn 0 "Very Happy" 3]
    = JS.Str (fixed1 n) /\
    10 <= n <= 50 /\
    ((n # 10) - (1 # 20)
     <= divide (fold_right Z.add 0%Z
                  (map (fun j => score (mood j))
                       [entryOn 0 "Happy" 1; entryOn 0 "Sad" 2;
                        entryOn 0 "Very Happy" 3]))
               (Z.of_nat (List.length [entryOn 0 "Happy" 1; entryOn 0 "Sad" 2;
                                       entryOn 0 "Very Happy" 3])))%Q /\
    (divide (fold_right Z.add 0%Z
               (map (fun j => score (mood j))
                    [entryOn 0 "Happy" 1; entryOn 0 "Sad" 2;
                     entryOn 0 "Very Happy" 3]))
            (Z.of_nat (List.length [entryOn 0 "Happy" 1; entryOn 0 "Sad" 2;
                                    entryOn 0 "Very Happy" 3]))
     < (n # 10) + (1 # 20))%Q /\
    (Qabs ((n # 10)
           - mean (map (fun j => score (mood j))
                       [entryOn 0 "Happy" 1; entryOn 0 "Sad" 2;
                        entryOn 0 "Very Happy" 3]))
     <= 1 # 20)%Q.
Proof.
  apply (proj1 (proj2 averageMood_is_rounded_mean)
           [entryOn 0 "Happy" 1; entryOn 0 "Sad" 2; entryOn 0 "Very Happy" 3]).
  - discriminate.
  - reflexivity.
  - repeat constructor; cbn; intro H;
      repeat (destruct H as [H | H]; [discriminate |]); destruct H.
Defined.

(** C10: the default is missed at a label that names a property every
    object inherits.  The label constructor is none of the five names, yet
    the lookup finds the inherited function, which is truthy, [|| 3] does
    not apply, the sum turns into text, and the average mood of the journal
    is NaN where the claim gives 3.0. *)
Lemma inherited_name_is_not_defaulted :
  ~ In "constructor"%string (map fst moodMap) /\
  moodOperand "constructor" = Object /\
  moodOperand "constructor" <> Numeric 3 /\
  averageMood [entryOn 0 "constructor" 1] = JS.Str "NaN".
Proof.
  split; [| split; [reflexivity | split; [discriminate | reflexivity]]].
  cbn. intros [H | [H | [H | [H | [H | []]]]]]; discriminate.
Qed.

(** X17: every mood label that is neither one of the five named labels
    nor the name of a property objects inherit counts as 3; consequently
    the average mood of every non-empty journal whose moods are among the
    six emoji of the page is exactly 3.0. *)
Theorem unlisted_mood_counts_as_three :
  (forall m : string,
      ~ In m (map fst moodMap) ->
      ~ In m ObjectPrototype ->
      moodOperand m = Numeric 3) /\
  (forall journals : list JournalEntry,
      journals <> [] ->
      Z.of_nat (List.length journals) < 2 ^ 32 ->
      Forall (fun j => In (mood j) Codec.moods) journals ->
      averageMood journals = JS.Str "3.0").
Proof.
  split.
  - intros m Hown Hinh. unfold moodOperand, get.
    now rewrite (ownProperty_absent _ _ Hown), (not_inherited _ Hinh).
  - intros journals Hne Hlen Hemoji.
    assert (Hm : map (fun j => moodOperand (mood j)) journals
                 = map Numeric (repeat 3 (List.length journals))).
    { clear Hne Hlen.
      induction Hemoji as [| j journals Hj _ IH]; [reflexivity |].
      cbn. now rewrite (emoji_operand _ Hj), IH. }
    destruct (averageMood_tenths _ _ Hne Hlen Hm) as (n & -> & Hnear).
    rewrite sum_repeat in Hnear.
    assert (HL : 0 < Z.of_nat (List.length journals))
      by (destruct journals; [congruence | cbn; lia]).
    replace n with 30 by nia. reflexivity.
Qed.

Lemma unlisted_mood_counts_as_three_witness :
  moodOperand "😡" = Numeric 3 /\
  averageMood [entryOn 0 "😊" 1; entryOn 0 "😱" 1; entryOn 0 "❤️" 2]
  = JS.Str "3.0".
Proof.
  split.
  - apply (proj1 unlisted_mood_counts_as_three).
    + cbn. intros [H | [H | [H | [H | [H | []]]]]]; discriminate.
    + cbn. intros H. repeat (destruct H as [H | H]; [discriminate |]).
      destruct H.
  - apply (proj2 unlisted_mood_counts_as_three).
    + discriminate.
    + reflexivity.
    + repeat constructor; cbn; tauto.
Defined.







(** ** Further properties of the handler *)

Section WalkBackward.

Import Calendar.
Local Open Scope Z_scope.

Lemma walkBackward_run (present : Z -> bool) (fuel : nat) :
  forall cursor,
    0 <= walkBackward fuel present cursor <= Z.of_nat fuel /\
    (forall i, 0 <= i < walkBackward fuel present cursor ->
               present (cursor - i) = true) /\
    (walkBackward fuel present cursor < Z.of_nat fuel ->
     present (cursor - walkBackward fuel present cursor) = false).
Proof.
  induction fuel as [| fuel IH]; intro cursor.
  - cbn. repeat split; intros; lia.
  - cbn [walkBackward]. destruct (present cursor) eqn:Hp.
    + destruct (IH (cursor - 1)) as (Hb & Hin & Hout).
      set (n := walkBackward fuel present (cursor - 1)) in *.
      split; [lia |]. split.
      * intros i Hi. destruct (Z.eq_dec i 0) as [-> | Hi0].
        -- now rewrite Z.sub_0_r.
        -- replace (cursor - i) with (cursor - 1 - (i - 1)) by ring.
           apply Hin. lia.
      * intro Hlt. replace (cursor - (1 + n)) with (cursor - 1 - n) by ring.
        apply Hout. lia.
    + split; [lia |]. split; [intros; lia |].
      intros _. now rewrite Z.sub_0_r.
Qed.

(** As many distinct days as a list is long, all in the list, leave no
    room for one more. *)
Lemma days_exhausted (days : list Z) (T : Z) :
  (forall i, 0 <= i < Z.of_nat (List.length days) -> In (T - i) days) ->
  ~ In (T - Z.of_nat (List.length days)) days.
Proof.
  intros Hall Hlast.
  set (f := List.length days) in *.
  set (run := map (fun i : nat => T - Z.of_nat i) (seq 0 (S f))).
  assert (Hnodup : NoDup run).
  { apply Finite.Injective_map_NoDup; [| apply seq_NoDup].
    intros a b Hab. lia. }
  assert (Hincl : incl run days).
  { intros d Hd. apply in_map_iff in Hd. destruct Hd as (i & <- & Hi).
    apply in_seq in Hi. destruct (Nat.eq_dec i f) as [-> | Hne].
    - exact Hlast.
    - apply Hall. lia. }
  pose proof (NoDup_incl_length Hnodup Hincl) as Hlen.
  unfold run in Hlen. rewrite length_map, length_seq in Hlen. fold f in Hlen.
  lia.
Qed.

Lemma computeStreak_run (days : list Z) (T : Z) :
  consecutiveRun (fun d => In d days) T (computeStreak days T).
Proof.
  unfold computeStreak.
  pose proof (walkBackward_run (fun d => existsb (Z.eqb d) days)
                (List.length days) T) as (Hb & Hin & Hout).
  set (n := walkBackward _ _ T) in *.
  assert (Hmem : forall d, existsb (Z.eqb d) days = true <-> In d days).
  { intro d. rewrite existsb_exists. split.
    - intros (x & Hx & Heq). apply Z.eqb_eq in Heq. now subst.
    - intro Hd. exists d. split; [exact Hd | apply Z.eqb_refl]. }
  split; [lia |]. split.
  - intros i Hi. apply Hmem. now apply Hin.
  - destruct (Z.eq_dec n (Z.of_nat (List.length days))) as [Hfull | Hless].
    + rewrite Hfull. apply days_exhausted.
      intros i Hi. apply Hmem, Hin. lia.
    + intro Hd. apply Hmem in Hd.
      rewrite Hout in Hd by lia. discriminate.
Qed.

Lemma hasEntry_daysOf (z : Zone) (journals : list JournalEntry) (day : Z) :
  hasEntry z journals day <-> In day (daysOf z journals).
Proof.
  unfold hasEntry, onDay, daysOf. rewrite in_flat_map. split.
  - intros (j & Hj & t & Ht & <-). exists j. split; [exact Hj |].
    rewrite Ht. now left.
  - intros (j & Hj & Hd). exists j. split; [exact Hj |].
    destruct (dateOnly j) as [| t]; [destruct Hd |].
    destruct Hd as [<- | []]. now exists t.
Qed.

End WalkBackward.

(** X1: the sorted scan of the handler computes what the specification's
    walk computes: for every journal whose dates parse, on a server whose
    zone is orderly and whose engine sorts valid dates as ECMAScript asks,
    the streak is the result of walking backward from today over the set
    of days that hold an entry. *)
Theorem streak_refines_walk :
  forall (w : World) (journals : list JournalEntry),
    Conforming w ->
    Forall parsed journals ->
    streak w journals = computeStreak (daysOf (zone w) journals) (today w).
Proof.
  intros w journals Hw Hp.
  apply (consecutiveRun_unique
           (hasEntry (zone w) journals)
           (fun d => In d (daysOf (zone w) journals)) (today w)).
  - intro d. apply hasEntry_daysOf.
  - now apply streak_run.
  - apply computeStreak_run.
Qed.

Lemma streak_refines_walk_witness :
  streak (newYorkAfterMidnight 20521)
         (map (entryAt easternTime2026 "😊")
              [20519; 20521; 20520; 20521; 20516])
  = computeStreak
      (daysOf (zone (newYorkAfterMidnight 20521))
              (map (entryAt easternTime2026 "😊")
                   [20519; 20521; 20520; 20521; 20516]))
      (today (newYorkAfterMidnight 20521)).
Proof.
  apply (streak_refines_walk (newYorkAfterMidnight 20521)
           (map (entryAt easternTime2026 "😊")
                [20519; 20521; 20520; 20521; 20516])).
  - apply newYorkAfterMidnight_conforming.
  - repeat constructor; apply entryAt_parsed.
Defined.

(** X2: the quotient the model divides to is the one binary64 division
    gives:
    on every total and length a journal of up to sixty entries can have,
    significand and exponent are those of the kernel's floating-point
    division. *)
Theorem divide_agrees_with_binary64 :
  forallb (fun '(total, len) => agreesWithKernel total len)
          (quotientsUpTo 60) = true.
Proof. vm_compute. reflexivity. Qed.

(** X3: a mean that lies halfway between two tenths is rounded as its
    binary64 quotient falls, not by a rule on the decimal: seventeen
    entries of Very Sad and three of Sad have mean 1.15 and give 1.1,
    three of Sad and one of Neutral have mean 2.25 and give 2.3. *)
Theorem averageMood_ties_follow_binary64 :
  averageMood (repeat (entryOn 0 "Very Sad" 1) 17
               ++ repeat (entryOn 0 "Sad" 1) 3)
  = JS.Str "1.1" /\
  (mean (repeat 1 17 ++ repeat 2 3)%Z == 115 # 100)%Q /\
  averageMood (repeat (entryOn 0 "Sad" 1) 3 ++ [entryOn 0 "Neutral" 1])
  = JS.Str "2.3" /\
  (mean (repeat 2 3 ++ [3])%Z == 225 # 100)%Q.
Proof.
  repeat split; vm_compute; reflexivity.
Qed.

(* ================================================================== *)
(** * Part III: further properties of the code *)
(* ================================================================== *)

(** ** The summary and the order of the documents *)

Section OrderOfDocuments.

Import Calendar.
Local Open Scope Z_scope.

Lemma add_commutes (s : Sum) (a b : Operand) :
  add (add s a) b = add (add s b) a.
Proof.
  destruct s, a, b; cbn; try reflexivity. f_equal. lia.
Qed.

Lemma totalMood_permutation (js1 js2 : list JournalEntry) :
  Permutation js1 js2 -> totalMood js1 = totalMood js2.
Proof.
  intro Hperm. unfold totalMood. generalize (Total 0).
  induction Hperm as [| j l l' _ IH | j k l | l l' l'' _ IH1 _ IH2];
    intro s; cbn [fold_left].
  - reflexivity.
  - apply IH.
  - now rewrite add_commutes.
  - now rewrite IH1.
Qed.

Lemma averageMood_permutation (js1 js2 : list JournalEntry) :
  Permutation js1 js2 -> averageMood js1 = averageMood js2.
Proof.
  intro Hperm. unfold averageMood.
  now rewrite (Permutation_length Hperm), (totalMood_permutation _ _ Hperm).
Qed.

Lemma hasEntry_incl (z : Zone) (js1 js2 : list JournalEntry) (day : Z) :
  incl js1 js2 -> hasEntry z js1 day -> hasEntry z js2 day.
Proof.
  intros Hincl (j & Hj & Hday). exists j. split; [now apply Hincl | exact Hday].
Qed.

End OrderOfDocuments.

(** X4: the average mood and the streak do not depend on the order in
    which the store returns the documents: for two journals with the same
    entries in another order, their dates parsing, on a server whose zone
    is orderly and whose engine sorts valid dates as ECMAScript asks, the
    handler computes the same summary from the same count. *)
Theorem statsHandler_independent_of_order :
  forall (w : World) (counted : Z) (js1 js2 : list JournalEntry),
    Conforming w ->
    Permutation js1 js2 ->
    Forall parsed js1 ->
    statsHandler w counted js1 = statsHandler w counted js2.
Proof.
  intros w counted js1 js2 Hw Hperm Hp. unfold statsHandler.
  rewrite (averageMood_permutation _ _ Hperm).
  f_equal.
  apply streak_same_days; [exact Hw | exact Hw | exact Hp | | | reflexivity].
  - rewrite Forall_forall in *. intros j Hj.
    apply Hp. now apply (Permutation_in _ (Permutation_sym Hperm)).
  - intro day. split; apply hasEntry_incl; intros j Hj.
    + now apply (Permutation_in _ Hperm).
    + now apply (Permutation_in _ (Permutation_sym Hperm)).
Qed.

Lemma statsHandler_independent_of_order_witness :
  statsHandler (eveningOf 10) 3
    [entryOn 19800000 "Happy" 9; entryOn 19800000 "😊" 10;
     entryOn 19800000 "Sad" 7]
  = statsHandler (eveningOf 10) 3
      [entryOn 19800000 "😊" 10; entryOn 19800000 "Sad" 7;
       entryOn 19800000 "Happy" 9].
Proof.
  apply (statsHandler_independent_of_order (eveningOf 10) 3
           [entryOn 19800000 "Happy" 9; entryOn 19800000 "😊" 10;
            entryOn 19800000 "Sad" 7]
           [entryOn 19800000 "😊" 10; entryOn 19800000 "Sad" 7;
            entryOn 19800000 "Happy" 9]).
  - apply eveningOf_conforming.
  - apply Permutation_cons_app with (l1 := [entryOn 19800000 "😊" 10;
                                            entryOn 19800000 "Sad" 7])
                                    (l2 := []).
    rewrite app_nil_r. reflexivity.
  - repeat constructor; apply entryOn_parsed.
Defined.

(** ** The streak from one day to the next, and what it looks at *)

(** X5: the streak from one day to the next, for a journal whose dates
    parse, on one server (orderly zone, engine sorting valid dates as
    ECMAScript asks) at two readings of its clock a calendar day apart:
    with an entry on today the streak is one more than what the same
    journal gave on the day before, without one it is 0, however long the
    run that ended yesterday. *)
Theorem streak_day_by_day :
  forall (w w' : World) (journals : list JournalEntry),
    Conforming w -> Conforming w' ->
    Forall parsed journals ->
    zone w' = zone w ->
    today w' = today w - 1 ->
    (hasEntry (zone w) journals (today w) ->
     streak w journals = 1 + streak w' journals) /\
    (~ hasEntry (zone w) journals (today w) ->
     streak w journals = 0).
Proof.
  intros w w' journals Hw Hw' Hp Hzone Hprev.
  pose proof (streak_run w journals Hw Hp) as Hrun.
  pose proof (streak_run w' journals Hw' Hp) as Hrun'.
  rewrite Hzone, Hprev in Hrun'.
  split.
  - intro Hin.
    destruct Hrun' as (Hn & Hdays & Hgap).
    apply (consecutiveRun_unique _ _ _ _ _ (fun d => iff_refl _) Hrun).
    split; [lia |]. split.
    + intros i Hi. destruct (Z.eq_dec i 0) as [-> | Hi0].
      * now rewrite Z.sub_0_r.
      * replace (today w - i) with (today w - 1 - (i - 1)) by ring.
        apply Hdays. lia.
    + replace (today w - (1 + streak w' journals))
        with (today w - 1 - streak w' journals) by ring.
      exact Hgap.
  - intro Hout. destruct Hrun as (Hn & Hdays & _).
    destruct (Z.eq_dec (streak w journals) 0) as [H0 | Hne]; [exact H0 |].
    exfalso. apply Hout. rewrite <- (Z.sub_0_r (today w)). apply Hdays. lia.
Qed.

Lemma streak_day_by_day_witness :
  streak (newYorkAfterMidnight 20521)
         (map (entryAt easternTime2026 "😊") [20521; 20520; 20519; 20517])
  = 1 + streak (newYorkAt (20520 * 86400000 + 19800000))
               (map (entryAt easternTime2026 "😊")
                    [20521; 20520; 20519; 20517]).
Proof.
  apply (proj1 (streak_day_by_day
                  (newYorkAfterMidnight 20521)
                  (newYorkAt (20520 * 86400000 + 19800000))
                  (map (entryAt easternTime2026 "😊")
                       [20521; 20520; 20519; 20517])
                  (newYorkAfterMidnight_conforming 20521)
                  (newYorkAt_conforming (20520 * 86400000 + 19800000))
                  ltac:(repeat constructor; apply entryAt_parsed)
                  eq_refl ltac:(vm_compute; reflexivity))).
  exists (entryAt easternTime2026 "😊" 20521). split; [now left |].
  replace (today (newYorkAfterMidnight 20521)) with 20521
    by (vm_compute; reflexivity).
  apply entryAt_onDay, easternTime2026_orderly.
Defined.

(** X6: a journal that holds every entry of another has at least its
    streak (dates parsing, orderly zone, engine sorting valid dates as
    ECMAScript asks): writing an entry never shortens the streak and
    deleting one never lengthens it. *)
Theorem streak_monotone :
  forall (w : World) (js1 js2 : list JournalEntry),
    Conforming w ->
    Forall parsed js1 -> Forall parsed js2 ->
    incl js1 js2 ->
    streak w js1 <= streak w js2.
Proof.
  intros w js1 js2 Hw H1 H2 Hincl.
  destruct (streak_run w js1 Hw H1) as (Hn1 & Hdays1 & _).
  destruct (streak_run w js2 Hw H2) as (Hn2 & _ & Hgap2).
  destruct (Z_le_gt_dec (streak w js1) (streak w js2)) as [Hle | Hgt];
    [exact Hle |].
  exfalso. apply Hgap2.
  apply (hasEntry_incl _ js1 js2 _ Hincl). apply Hdays1. lia.
Qed.

Lemma streak_monotone_witness :
  streak (eveningOf 10) [entryOn 19800000 "😊" 10]
  <= streak (eveningOf 10)
            [entryOn 19800000 "😔" 9; entryOn 19800000 "😊" 10].
Proof.
  apply (streak_monotone (eveningOf 10) [entryOn 19800000 "😊" 10]
           [entryOn 19800000 "😔" 9; entryOn 19800000 "😊" 10]).
  - apply eveningOf_conforming.
  - repeat constructor; apply entryOn_parsed.
  - repeat constructor; apply entryOn_parsed.
  - intros j [<- | []]. right. now left.
Defined.

(** X7: the streak looks only at the days from the first gap up to
    today: two journals (dates parsing, orderly zone, engine sorting valid
    dates as ECMAScript asks) that agree on which of those days hold an
    entry have the same streak, so entries dated after today and entries
    older than the gap change nothing. *)
Theorem streak_looks_at_the_run_only :
  forall (w : World) (js1 js2 : list JournalEntry),
    Conforming w ->
    Forall parsed js1 -> Forall parsed js2 ->
    (forall day,
        today w - streak w js1 <= day <= today w ->
        (hasEntry (zone w) js1 day <-> hasEntry (zone w) js2 day)) ->
    streak w js2 = streak w js1.
Proof.
  intros w js1 js2 Hw H1 H2 Hagree.
  destruct (streak_run w js1 Hw H1) as (Hn & Hdays & Hgap).
  apply (consecutiveRun_unique _ _ _ _ _ (fun d => iff_refl _)
           (streak_run w js2 Hw H2)).
  split; [exact Hn |]. split.
  - intros i Hi. apply Hagree; [lia | now apply Hdays].
  - intro Hin. apply Hgap. apply Hagree; [lia | exact Hin].
Qed.

Lemma streak_looks_at_the_run_only_witness :
  streak (eveningOf 10)
         [entryOn 19800000 "😊" 12; entryOn 19800000 "😊" 10;
          entryOn 19800000 "😊" 9; entryOn 19800000 "😊" 3]
  = streak (eveningOf 10)
           [entryOn 19800000 "😊" 10; entryOn 19800000 "😊" 9].
Proof.
  apply (streak_looks_at_the_run_only (eveningOf 10)
           [entryOn 19800000 "😊" 10; entryOn 19800000 "😊" 9]
           [entryOn 19800000 "😊" 12; entryOn 19800000 "😊" 10;
            entryOn 19800000 "😊" 9; entryOn 19800000 "😊" 3]).
  - apply eveningOf_conforming.
  - repeat constructor; apply entryOn_parsed.
  - repeat constructor; apply entryOn_parsed.
  - replace (streak (eveningOf 10)
               [entryOn 19800000 "😊" 10; entryOn 19800000 "😊" 9])
      with 2 by (vm_compute; reflexivity).
    replace (today (eveningOf 10)) with 10 by (vm_compute; reflexivity).
    cbn [zone eveningOf].
    intros day Hday. rewrite !hasEntry_cons. split.
    + intros [H | [H | (k & [] & _)]]; auto.
    + intros [H | [H | [H | [H | (k & [] & _)]]]]; auto.
      * pose proof (onDay_unique _ _ _ _ (entryOn_onDay _ _ _) H). lia.
      * pose proof (onDay_unique _ _ _ _ (entryOn_onDay _ _ _) H). lia.
Defined.

(** X18: the streak goes by calendar days, not by spans of 24 hours:
    on a server in New York half an hour after the midnight that begins
    9 March 2026, the day after the clocks went forward, entries on 7, 8
    and 9 March give the streak 3, although the instant 24 hours before
    the clock reading still falls on 7 March. *)
Theorem streak_across_the_clock_shift :
  today (newYorkAfterMidnight 20521) = 20521 /\
  Calendar.dayIn easternTime2026
                 (clock (newYorkAfterMidnight 20521) - Calendar.msPerDay)
  = 20519 /\
  streak (newYorkAfterMidnight 20521)
         (map (entryAt easternTime2026 "😊") [20519; 20521; 20520])
  = 3 /\
  (forall m day,
      onDay easternTime2026 (entryAt easternTime2026 m day) day).
Proof.
  split; [vm_compute; reflexivity |].
  split; [vm_compute; reflexivity |].
  split; [vm_compute; reflexivity |].
  intros m day. apply entryAt_onDay, easternTime2026_orderly.
Qed.

(** ** The placeholder *)

(** X8: the placeholder is an ordinary text: an entry whose text is the
    placeholder itself is shown exactly as an entry whose decryption came
    out empty, so the page cannot tell the two apart. *)
Theorem placeholder_is_an_ordinary_text :
  forall (lib : CipherLibrary) (SECRET_KEY : string) (salt : Entropy lib)
         (c c' : string) (bytes : WordArray lib),
    Lawful lib ->
    encryptText lib SECRET_KEY salt FailedToDecrypt = JS.Normal c ->
    AES_decrypt lib c' SECRET_KEY = JS.Normal bytes ->
    Utf8_stringify lib bytes = JS.Normal ""%string ->
    decryptText lib SECRET_KEY c = JS.Normal FailedToDecrypt /\
    decryptText lib SECRET_KEY c' = decryptText lib SECRET_KEY c.
Proof.
  intros lib key salt c c' bytes Hlaw Henc Hd Hs.
  destruct (Hlaw _ key salt c Henc) as (b & Hb & Hu).
  assert (Hc : decryptText lib key c = JS.Normal FailedToDecrypt).
  { unfold decryptText. rewrite Hb; cbn. now rewrite Hu. }
  split; [exact Hc |].
  rewrite Hc. unfold decryptText. rewrite Hd; cbn. now rewrite Hs.
Qed.

Lemma placeholder_is_an_ordinary_text_witness :
  exists c,
    encryptText xorLibrary "key" "s"%char FailedToDecrypt = JS.Normal c /\
    decryptText xorLibrary "key" "s" = decryptText xorLibrary "key" c.
Proof.
  eexists. split; [reflexivity |].
  apply (placeholder_is_an_ordinary_text xorLibrary "key" "s"%char _ "s"%string
           ""%string xorLibrary_lawful); reflexivity.
Defined.

(** ** The list of entries on the page *)

Section PageProperties.

Import Page PageSpec.
Local Open Scope Z_scope.

Lemma differs_true (a b : Id) : differs a b = true <-> a <> b.
Proof.
  destruct a as [x | x], b as [y | y]; cbn.
  - rewrite negb_true_iff, Z.eqb_neq. split; congruence.
  - split; [discriminate | reflexivity].
  - split; [discriminate | reflexivity].
  - rewrite negb_true_iff, String.eqb_neq. split; congruence.
Qed.

Lemma differs_false (a b : Id) : differs a b = false <-> a = b.
Proof.
  destruct (differs a b) eqn:Hd.
  - apply differs_true in Hd. split; [discriminate | contradiction].
  - split; [intros _ | reflexivity].
    destruct a as [x | x], b as [y | y]; cbn in Hd; try discriminate.
    + apply negb_false_iff, Z.eqb_eq in Hd. now subst.
    + apply negb_false_iff, String.eqb_eq in Hd. now subst.
Qed.

Lemma filter_keeps_all {A : Type} (f : A -> bool) (l : list A) :
  Forall (fun a => f a = true) l -> filter f l = l.
Proof.
  induction 1 as [| a l Ha _ IH]; cbn; [reflexivity |].
  now rewrite Ha, IH.
Qed.

Lemma pageEntryOf_returns (lib : CipherLibrary) (key : string) (tza : Z)
  (e : ServerEntry) :
  exists shown,
    decryptText lib key (stored_text (record e)) = JS.Normal shown /\
    pageEntryOf lib key tza e = JS.Normal (shownAs tza e shown).
Proof.
  destruct (decryptText_returns lib key (stored_text (record e))) as [s Hs].
  exists s. split; [exact Hs |].
  unfold pageEntryOf, viewOf. rewrite Hs. reflexivity.
Qed.

Lemma pageEntries_return (lib : CipherLibrary) (key : string) (tza : Z)
  (data : list ServerEntry) :
  exists shown,
    JS.mapM (pageEntryOf lib key tza) data = JS.Normal shown /\
    Forall2 (fun e p =>
               exists s,
                 decryptText lib key (stored_text (record e)) = JS.Normal s /\
                 p = shownAs tza e s)
            data shown.
Proof.
  induction data as [| e data (shown & Hm & Hall)]; cbn.
  - exists []. split; [reflexivity | constructor].
  - destruct (pageEntryOf_returns lib key tza e) as (s & Hs & He).
    rewrite He; cbn. rewrite Hm; cbn.
    eexists. split; [reflexivity |].
    constructor; [now exists s | exact Hall].
Qed.

Lemma localDay_interval (tza t day : Z) :
  localDay tza t = day <->
  day * msPerDay <= t + tza < (day + 1) * msPerDay.
Proof.
  unfold localDay, Day.
  assert (HD : 0 < msPerDay) by (unfold msPerDay; lia).
  pose proof (Z.div_mod (t + tza) msPerDay ltac:(lia)) as Hdm.
  pose proof (Z.mod_pos_bound (t + tza) msPerDay HD) as Hr.
  split.
  - intros <-. lia.
  - intros Hday. symmetry.
    apply (Z.div_unique _ _ _ (t + tza - day * msPerDay)); lia.
Qed.

Lemma sameDateString_createdOn (tza day : Z) (e : ServerEntry) :
  sameDateString (toDateString tza (createdAt (record e))) (CalendarDay day)
  = createdOn tza day e.
Proof.
  unfold createdOn. destruct (createdAt (record e)) as [| t]; cbn;
    [reflexivity |].
  destruct (Z.eqb_spec (localDay tza t) day) as [He | Hne].
  - apply localDay_interval in He. symmetry.
    apply andb_true_iff. split; [apply Z.leb_le | apply Z.ltb_lt]; lia.
  - symmetry. apply not_true_is_false. intro H.
    apply andb_true_iff in H. destruct H as [H1 H2].
    apply Z.leb_le in H1. apply Z.ltb_lt in H2.
    apply Hne, localDay_interval. lia.
Qed.

End PageProperties.

Import Page PageSpec.

(** X9: a submission that the server stores as posted ends with the
    entry on top of the list, showing the text the user typed, in place of
    the temporary entry, the rest of the list as it was; a failed POST
    leaves the list, temporary entry included, as it was. *)
Theorem submission_replaces_the_temporary_entry :
  forall (lib : CipherLibrary) (SECRET_KEY : string)
         (trim : string -> string) (tza idNow now : Z) (salt : Entropy lib)
         (entry mood : string) (body : PostBody) (saved : ServerEntry)
         (entries : list PageEntry),
    Lawful lib ->
    trim ""%string = ""%string ->
    handleSubmit lib SECRET_KEY trim tza now salt entry mood
    = JS.Normal (Posted body) ->
    stored_text (record saved) = post_text body ->
    Forall (fun en => id en <> TempId idNow) entries ->
    afterPost lib SECRET_KEY tza (TempId idNow) (JS.Normal saved)
              (tempEntry tza idNow now entry mood :: entries)
    = JS.Normal (shownAs tza saved entry :: entries) /\
    (forall reason,
        afterPost lib SECRET_KEY tza (TempId idNow) (JS.Throw reason)
                  (tempEntry tza idNow now entry mood :: entries)
        = JS.Normal (tempEntry tza idNow now entry mood :: entries)).
Proof.
  intros lib key trim tza idNow now salt entry mood body saved entries
         Hlaw Htrim Hpost Hstored Hids.
  split; [| reflexivity].
  assert (Hshown : decryptText lib key (stored_text (record saved))
                   = JS.Normal entry).
  { unfold handleSubmit in Hpost.
    assert (Hne : entry <> ""%string).
    { intros ->. rewrite Htrim in Hpost. discriminate. }
    destruct (JS.truthy (trim entry)); [| discriminate].
    destruct (JS.truthy mood); [| discriminate].
    cbn in Hpost.
    destruct (encryptText lib key salt entry) as [c | r] eqn:Henc;
      [| discriminate].
    cbn in Hpost. injection Hpost as <-. cbn in Hstored. rewrite Hstored.
    destruct (Hlaw entry key salt c Henc) as (bytes & Hd & Hs).
    unfold decryptText. rewrite Hd; cbn. rewrite Hs; cbn.
    now rewrite orElse_nonempty. }
  unfold afterPost, pageEntryOf, viewOf. cbn. rewrite Hshown. cbn.
  rewrite Z.eqb_refl. cbn.
  rewrite filter_keeps_all; [reflexivity |].
  apply (Forall_impl _ (fun en H => proj2 (differs_true _ _) H) Hids).
Qed.

Lemma submission_replaces_the_temporary_entry_witness :
  afterPost xorLibrary " key" 0 (TempId 5)
    (JS.Normal {| _id := "a1";
                  record := {| stored_text := "sdEAR";
                               stored_mood := "😊";
                               createdAt := DateAt 7 |} |})
    [tempEntry 0 5 6 "Dear" "😊"]
  = JS.Normal
      [shownAs 0 {| _id := "a1";
                    record := {| stored_text := "sdEAR";
                                 stored_mood := "😊";
                                 createdAt := DateAt 7 |} |} "Dear"].
Proof.
  apply (proj1 (submission_replaces_the_temporary_entry xorLibrary " key"
                  (fun s => s) 0 5 6 "s"%char "Dear" "😊"
                  {| post_text := "sdEAR"; post_mood := "😊";
                     post_dateOnly := submittedDateOnly 0 6 |}
                  {| _id := "a1";
                     record := {| stored_text := "sdEAR";
                                  stored_mood := "😊";
                                  createdAt := DateAt 7 |} |}
                  [] xorLibrary_lawful eq_refl eq_refl eq_refl
                  (Forall_nil _))).
Defined.

Section DeleteProperties.

Lemma filter_differs_length (entryId : Id) (prev : list PageEntry) :
  NoDup (map id prev) ->
  In entryId (map id prev) ->
  S (List.length (filter (fun e => differs (id e) entryId) prev))
  = List.length prev.
Proof.
  induction prev as [| e prev IH]; intros Hnd Hin; [destruct Hin |].
  cbn [map] in Hnd, Hin. apply NoDup_cons_iff in Hnd. destruct Hnd as [Hnot Hnd].
  cbn [filter List.length].
  destruct (differs (id e) entryId) eqn:Hd.
  - apply differs_true in Hd. destruct Hin as [Heq | Hin]; [contradiction |].
    cbn [List.length]. now rewrite (IH Hnd Hin).
  - apply differs_false in Hd. subst entryId. f_equal.
    f_equal. apply filter_keeps_all.
    apply Forall_forall. intros x Hx. apply differs_true.
    intro Heq. apply Hnot. rewrite <- Heq. now apply in_map.
Qed.

End DeleteProperties.

(** X10: a deletion that the server accepted removes from the list
    exactly the entries with the given id and keeps the others; repeating
    it changes nothing more, two deletions give the same list in either
    order, and when ids are unique the list is shorter by one.  Without a
    token, or when the request fails, the list stays as it was. *)
Theorem handleDelete_removes_exactly_that_entry :
  forall (token : string) (entryId : Id) (prev : list PageEntry),
    token <> ""%string ->
    exists next,
      handleDelete token (JS.Normal tt) entryId prev = JS.Normal next /\
      (forall e, In e next <-> In e prev /\ id e <> entryId) /\
      handleDelete token (JS.Normal tt) entryId next = JS.Normal next /\
      (NoDup (map id prev) -> In entryId (map id prev) ->
       S (List.length next) = List.length prev) /\
      (forall other,
          exists mid last,
            handleDelete token (JS.Normal tt) other prev = JS.Normal mid /\
            handleDelete token (JS.Normal tt) entryId mid = JS.Normal last /\
            handleDelete token (JS.Normal tt) other next = JS.Normal last) /\
      (forall reason,
          handleDelete token (JS.Throw reason) entryId prev = JS.Normal prev) /\
      (forall request,
          handleDelete ""%string request entryId prev = JS.Normal prev).
Proof.
  intros token entryId prev Htoken.
  assert (Hrun : forall i l,
             handleDelete token (JS.Normal tt) i l
             = JS.Normal (filter (fun e => differs (id e) i) l)).
  { intros i l. unfold handleDelete.
    destruct token; [congruence | reflexivity]. }
  exists (filter (fun e => differs (id e) entryId) prev).
  split; [apply Hrun |]. split; [| split; [| split; [| split; [| split]]]].
  - intro e. rewrite filter_In, differs_true. tauto.
  - rewrite Hrun. f_equal. apply filter_keeps_all.
    apply Forall_forall. intros e He. apply filter_In in He. tauto.
  - apply filter_differs_length.
  - intro other. eexists. eexists.
    rewrite !Hrun. split; [reflexivity |]. split; [reflexivity |].
    f_equal. clear. induction prev as [| e prev IH]; [reflexivity |].
    cbn [filter].
    destruct (differs (id e) entryId) eqn:H1, (differs (id e) other) eqn:H2;
      cbn [filter]; rewrite ?H1, ?H2, IH; reflexivity.
  - intro reason. unfold handleDelete.
    destruct token; [congruence | reflexivity].
  - reflexivity.
Qed.

Lemma handleDelete_removes_exactly_that_entry_witness :
  exists next,
    handleDelete "token" (JS.Normal tt) (ServerId "a1")
      [shownAs 0 {| _id := "a2";
                    record := {| stored_text := "x"; stored_mood := "😊";
                                 createdAt := DateAt 7 |} |} "two";
       shownAs 0 {| _id := "a1";
                    record := {| stored_text := "y"; stored_mood := "😊";
                                 createdAt := DateAt 8 |} |} "one"]
    = JS.Normal next /\
    (forall e, In e next <->
               In e [shownAs 0 {| _id := "a2";
                                  record := {| stored_text := "x";
                                               stored_mood := "😊";
                                               createdAt := DateAt 7 |} |}
                             "two";
                     shownAs 0 {| _id := "a1";
                                  record := {| stored_text := "y";
                                               stored_mood := "😊";
                                               createdAt := DateAt 8 |} |}
                             "one"]
               /\ id e <> ServerId "a1").
Proof.
  destruct (handleDelete_removes_exactly_that_entry "token" (ServerId "a1")
              [shownAs 0 {| _id := "a2";
                            record := {| stored_text := "x";
                                         stored_mood := "😊";
                                         createdAt := DateAt 7 |} |} "two";
               shownAs 0 {| _id := "a1";
                            record := {| stored_text := "y";
                                         stored_mood := "😊";
                                         createdAt := DateAt 8 |} |} "one"]
              ltac:(discriminate))
    as (next & Hnext & Hin & _).
  exists next. split; [exact Hnext | exact Hin].
Defined.

(** X11: the fetch effect never throws and shows all or nothing: when
    the request fails or its data is no array the list stays as it was,
    otherwise it becomes one entry per record, in order, each with the
    record's id, its day in the browser's zone and its decrypted text or
    a placeholder. *)
Theorem afterFetch_all_or_nothing :
  forall (lib : CipherLibrary) (SECRET_KEY : string) (tza : Z)
         (response : JS.Completion ResponseData) (entries : list PageEntry),
    exists next,
      afterFetch lib SECRET_KEY tza response entries = JS.Normal next /\
      ((forall data, response <> JS.Normal (Records data)) -> next = entries) /\
      (forall data,
          response = JS.Normal (Records data) ->
          Forall2 (fun e p =>
                     exists s,
                       decryptText lib SECRET_KEY (stored_text (record e))
                       = JS.Normal s /\
                       p = shownAs tza e s)
                  data next).
Proof.
  intros lib key tza response entries. unfold afterFetch.
  destruct response as [[| data] | reason]; cbn.
  - exists entries. split; [reflexivity |].
    split; [reflexivity | discriminate].
  - destruct (pageEntries_return lib key tza data) as (shown & -> & Hall).
    exists shown. split; [reflexivity |]. split.
    + intro H. exfalso. exact (H data eq_refl).
    + intros data' Heq. injection Heq as <-. exact Hall.
  - exists entries. split; [reflexivity |].
    split; [reflexivity | discriminate].
Qed.

Section CalendarProperties2.

Lemma pageEntries_on_day (lib : CipherLibrary) (key : string) (tza day : Z)
  (data : list ServerEntry) :
  exists all shown,
    JS.mapM (pageEntryOf lib key tza) data = JS.Normal all /\
    JS.mapM (pageEntryOf lib key tza) (filter (createdOn tza day) data)
    = JS.Normal shown /\
    filter (fun e => sameDateString (Codec.dateOnly (view e)) (CalendarDay day)) all
    = shown.
Proof.
  induction data as [| e data (all & shown & Hall & Hshown & Hfilter)].
  - exists [], []. repeat split.
  - destruct (pageEntryOf_returns lib key tza e) as (s & _ & He).
    exists (shownAs tza e s :: all).
    cbn [filter JS.mapM]. rewrite He. cbn [JS.bind].
    rewrite Hall. cbn [JS.bind].
    cbn [filter shownAs view Codec.dateOnly].
    rewrite sameDateString_createdOn.
    destruct (createdOn tza day e).
    + cbn [JS.mapM]. rewrite He. cbn [JS.bind]. rewrite Hshown.
      cbn [JS.bind]. eexists. repeat split. now rewrite Hfilter.
    + exists shown. repeat split; assumption.
Qed.

End CalendarProperties2.

(** X12: in a browser whose zone keeps one offset [tza] from the
    creation of the records to the picked date (no shift of the clocks in
    between), picking a day in the calendar shows exactly the records
    created during that day of the zone, from midnight to midnight local
    time, in the order they were fetched; with no day picked the whole
    list is shown. *)
Theorem filteredEntries_shows_the_day :
  forall (lib : CipherLibrary) (SECRET_KEY : string) (tza day picked : Z)
         (data : list ServerEntry) (old : list PageEntry),
    localDay tza picked = day ->
    exists all shown,
      afterFetch lib SECRET_KEY tza (JS.Normal (Records data)) old
      = JS.Normal all /\
      afterFetch lib SECRET_KEY tza
                 (JS.Normal (Records (filter (createdOn tza day) data))) old
      = JS.Normal shown /\
      filteredEntries tza (Some (DateAt picked)) all = shown /\
      filteredEntries tza None all = all.
Proof.
  intros lib key tza day picked data old Hday.
  destruct (pageEntries_on_day lib key tza day data)
    as (all & shown & Hall & Hshown & Hfilter).
  exists all, shown.
  unfold afterFetch. cbn [JS.bind]. rewrite Hall, Hshown.
  repeat split.
  cbn [filteredEntries toDateString]. rewrite Hday. exact Hfilter.
Qed.

Lemma filteredEntries_shows_the_day_witness :
  exists all shown,
    afterFetch xorLibrary " key" 19800000
      (JS.Normal (Records
         [{| _id := "a1";
             record := {| stored_text := "sdEAR"; stored_mood := "😊";
                          createdAt := DateAt (10 * 86400000) |} |};
          {| _id := "a2";
             record := {| stored_text := "sdEAR"; stored_mood := "😊";
                          createdAt := DateAt (10 * 86400000 + 72000000) |} |}]))
      []
    = JS.Normal all /\
    afterFetch xorLibrary " key" 19800000
      (JS.Normal (Records
         (filter (createdOn 19800000 10)
            [{| _id := "a1";
                record := {| stored_text := "sdEAR"; stored_mood := "😊";
                             createdAt := DateAt (10 * 86400000) |} |};
             {| _id := "a2";
                record := {| stored_text := "sdEAR"; stored_mood := "😊";
                             createdAt :=
                               DateAt (10 * 86400000 + 72000000) |} |}])))
      []
    = JS.Normal shown /\
    filteredEntries 19800000
      (Some (DateAt (10 * 86400000 - 19800000))) all = shown /\
    filteredEntries 19800000 None all = all.
Proof.
  apply (filteredEntries_shows_the_day xorLibrary " key" 19800000 10
           (10 * 86400000 - 19800000)).
  reflexivity.
Defined.

Section MoodProperties.


End MoodProperties.



(** ** The statistics request *)



(** ** The mounted routers *)

Section MountProperties.

Import Server.
Local Open Scope string_scope.

Lemma lower_slash (c : ascii) : lower c = "/"%char -> c = "/"%char.
Proof.
  unfold lower.
  destruct ((65 <=? nat_of_ascii c)%nat && (nat_of_ascii c <=? 90)%nat)
    eqn:Hup; [| auto].
  intro H. exfalso.
  apply andb_true_iff in Hup. destruct Hup as [H1 H2].
  apply Nat.leb_le in H1. apply Nat.leb_le in H2.
  apply (f_equal nat_of_ascii) in H.
  rewrite nat_ascii_embedding in H by lia.
  cbn in H. lia.
Qed.

(** Two mount paths that both take a request path: one of them, read as
    a path, is taken by the other. *)
Lemma mounted_both (a b : string) :
  forall path,
    mounted a path = true -> mounted b path = true ->
    mounted a b = true \/ mounted b a = true.
Proof.
  unfold mounted. revert b.
  induction a as [| x a IH]; intros b path Ha Hb.
  - cbn in Ha. destruct b as [| y b]; [now left |].
    left. cbn. destruct path as [| p path]; cbn in Hb; [discriminate |].
    cbn in Ha. apply Ascii.eqb_eq in Ha. subst p.
    destruct (Ascii.eqb_spec (lower y) (lower "/")) as [He | Hne];
      [| discriminate].
    apply Ascii.eqb_eq. now apply lower_slash.
  - destruct path as [| p path]; cbn in Ha; [discriminate |].
    destruct (Ascii.eqb_spec (lower x) (lower p)) as [Hx | Hne];
      [| discriminate].
    destruct b as [| y b].
    + right. cbn. cbn in Hb. apply Ascii.eqb_eq in Hb. subst p.
      apply Ascii.eqb_eq. now apply lower_slash.
    + cbn in Hb.
      destruct (Ascii.eqb_spec (lower y) (lower p)) as [Hy | Hne];
        [| discriminate].
      cbn. rewrite Hx, Hy, !Ascii.eqb_refl.
      exact (IH b path Ha Hb).
Qed.

End MountProperties.

(** X15: no request path reaches two of the mounted routers: the mount
    paths of server.js are pairwise apart up to a segment boundary, so a
    request under /api/journals/stats reaches the statistics router only
    and is not taken by the journal router mounted at /api/journal. *)
Theorem each_path_reaches_at_most_one_router :
  forall path : string,
    (List.length (Server.routersFor path) <= 1)%nat /\
    (Server.mounted "/api/journals/stats" path = true ->
     Server.routersFor path = ["statsRoutes"%string]) /\
    (Server.mounted "/api/journal" path = true ->
     Server.routersFor path = ["journalRoutes"%string]).
Proof.
  intro path. unfold Server.routersFor, Server.mounts.
  cbn [filter fst snd map].
  destruct (Server.mounted "/api/auth" path) eqn:H1;
    destruct (Server.mounted "/api/community" path) eqn:H2;
    destruct (Server.mounted "/api/journal" path) eqn:H3;
    destruct (Server.mounted "/api/journals/stats" path) eqn:H4;
    destruct (Server.mounted "/api/ai" path) eqn:H5;
    cbn [map snd List.length];
    try (repeat split; solve [lia | reflexivity | discriminate]);
    exfalso;
    repeat match goal with
           | Ha : Server.mounted ?a path = true,
             Hb : Server.mounted ?b path = true |- _ =>
               lazymatch a with
               | b => fail
               | _ =>
                   destruct (mounted_both a b path Ha Hb) as [Hab | Hab];
                   vm_compute in Hab; discriminate
               end
           end.
Qed.

Lemma each_path_reaches_at_most_one_router_witness :
  Server.routersFor "/API/journals/stats/" = ["statsRoutes"%string].
Proof.
  apply (proj1 (proj2 (each_path_reaches_at_most_one_router
                         "/API/journals/stats/"))).
  reflexivity.
Defined.

(** ** The average and the range of the moods *)

Section RangeOfScores.

Local Open Scope Z_scope.

Lemma scores_sum_between (lo hi : Z) (scores : list Z) :
  Forall (fun v => lo <= v <= hi) scores ->
  lo * Z.of_nat (List.length scores) <= fold_right Z.add 0 scores
  <= hi * Z.of_nat (List.length scores).
Proof.
  induction 1 as [| v scores Hv _ IH]; cbn [fold_right List.length]; lia.
Qed.

End RangeOfScores.

(** X16: rounding never takes the average out of the range of the
    moods entered: when every score of a non-empty journal lies between
    [lo] and [hi], the average mood is the numeral of a number of tenths
    between [lo] and [hi]; a journal of one mood shows exactly the score
    of that mood. *)
Theorem averageMood_within_the_scores :
  forall (journals : list JournalEntry) (scores : list Z) (lo hi : Z),
    journals <> [] ->
    Z.of_nat (List.length journals) < 2 ^ 32 ->
    map (fun j => moodOperand (mood j)) journals = map Numeric scores ->
    Forall (fun v => lo <= v <= hi) scores ->
    exists n,
      averageMood journals = JS.Str (fixed1 n) /\
      10 * lo <= n <= 10 * hi.
Proof.
  intros journals scores lo hi Hne Hlen Hm Hrange.
  destruct (averageMood_tenths _ _ Hne Hlen Hm) as (n & Hn & Hnear).
  pose proof (scores_sum_between lo hi scores Hrange) as Hsum.
  assert (Hsame : List.length scores = List.length journals).
  { apply (f_equal (@List.length _)) in Hm. now rewrite !length_map in Hm. }
  rewrite Hsame in Hsum.
  assert (HL : 0 < Z.of_nat (List.length journals))
    by (destruct journals; [congruence | cbn; lia]).
  exists n. split; [exact Hn |]. nia.
Qed.

Lemma averageMood_within_the_scores_witness :
  exists n,
    averageMood [entryOn 0 "Happy" 1; entryOn 0 "Happy" 2;
                 entryOn 0 "Happy" 4]
    = JS.Str (fixed1 n) /\
    10 * 4 <= n <= 10 * 4.
Proof.
  apply (averageMood_within_the_scores
           [entryOn 0 "Happy" 1; entryOn 0 "Happy" 2; entryOn 0 "Happy" 4]
           [4; 4; 4] 4 4).
  - discriminate.
  - reflexivity.
  - reflexivity.
  - repeat constructor; lia.
Defined.
